(** * seance-1/index.js: endorsement statistics, reduce idioms, batch
      retrieval and the 2022/2017 join

    A shallow embedding of the third immediately-invoked async function of
    [seance-1/index.js] (lines 64-198) and of the expressions it evaluates.

    - Arrays are [list]s, [Array.prototype.reduce] with an initial value is a
      left fold, [filter]/[map] are the list functions.
    - Strings are [string]s (sequences of code units); [===] on strings is
      [String.eqb], [String.prototype.includes] is [includes] below.
    - Numbers are IEEE 754 binary64 values ([double]), with the operations
      of the standard library's executable specification of floating-point
      arithmetic (round to nearest, ties to even).  Array lengths and tallies
      are naturals: they stay far below 2^53, where doubles are exact.  The
      percentage of line 71 is also given in exact rational arithmetic
      ([number]), for the statements that are made about exact arithmetic.
    - The tally object of the join is a JavaScript object literal [{}]: its
      own properties are a [gmap], and a read that misses them falls through
      to [Object.prototype].
    - Promises, [fetch], [fs.readFileSync], [JSON.parse] and [console.log]
      live in an error monad over an event trace. *)

From Stdlib Require Import QArith Qcanon.
From Stdlib Require SpecFloat.
From stdpp Require Import base numbers list strings gmap fin_maps sorting.

Local Open Scope string_scope.
Local Open Scope list_scope.

(** ** Data model *)

(** One element of the JSON arrays [data2022] / [data2017].  The script only
    ever reads these five properties, all strings. *)
Record EndorsementRecord := mkRecord {
  name : string;
  civility : string;
  mandate : string;
  constituency : string;
  candidate : string
}.

(** A prior-year record as the join reads it: [civility] and [mandate] are
    never looked at on [data2017] elements. *)
Definition sponsor (n c cand : string) : EndorsementRecord :=
  mkRecord n EmptyString EmptyString c cand.

(** ** Array and string primitives *)

(** [array.reduce(callback, initialValue)]. *)
Definition reduce {A B : Type} (callback : B -> A -> B) (initialValue : B)
    (array : list A) : B :=
  fold_left callback array initialValue.

(** [array.find(callback)]: the first element satisfying the callback, or
    [undefined] ([None]). *)
Definition find {A : Type} (callback : A -> bool) (array : list A) : option A :=
  List.find callback array.

(** [s.includes(sub)]: [sub] occurs in [s] at some position; comparison is by
    code unit, hence case-sensitive. *)
Fixpoint includes (s sub : string) : bool :=
  String.prefix sub s ||
  match s with
  | EmptyString => false
  | String _ s' => includes s' sub
  end.

(** [new Set(iterable)] followed by the spread [[...set]]: a [Set] remembers
    insertion order and [add] ignores a value that is already present. *)
Section JsSet.
Context {A : Type} `{EqDecision A}.

Definition Set_add (set : list A) (x : A) : list A :=
  if bool_decide (x ∈ set) then set else set ++ [x].

Definition new_Set (iterable : list A) : list A :=
  reduce Set_add [] iterable.

End JsSet.

(** ** Numbers

    A JavaScript number is a binary64 value: 53 bits of precision, infinities
    at exponent 1024. *)

Definition double : Type := SpecFloat.spec_float.

(** The double nearest to an integer (exact up to 2^53). *)
Definition double_of_Z (z : Z) : double :=
  SpecFloat.binary_normalize 53 1024 z 0 false.

Definition double_of_nat (n : nat) : double := double_of_Z (Z.of_nat n).

(** [x / y], [x * y] and [x + y] on doubles. *)
Definition double_div : double -> double -> double := SpecFloat.SFdiv 53 1024.
Definition double_mul : double -> double -> double := SpecFloat.SFmul 53 1024.
Definition double_add : double -> double -> double := SpecFloat.SFadd 53 1024.

(** *** Exact arithmetic

    The same operations without rounding: rationals extended with [NaN] and
    the two infinities. *)

Inductive number :=
| NaN
| PosInfinity
| NegInfinity
| Num (q : Qc).

Definition number_of_nat (n : nat) : number := Num (Qc_of_Z (Z.of_nat n)).

(** [x / y] (signed zeros are not distinguished: every zero is [+0]). *)
Definition number_div (x y : number) : number :=
  match x, y with
  | Num a, Num b =>
      if decide (b = 0%Qc) then
        if decide (a = 0%Qc) then NaN
        else if decide (0 < a)%Qc then PosInfinity else NegInfinity
      else Num (a / b)%Qc
  | Num _, (PosInfinity | NegInfinity) => Num 0%Qc
  | PosInfinity, Num b => if decide (0 ≤ b)%Qc then PosInfinity else NegInfinity
  | NegInfinity, Num b => if decide (0 ≤ b)%Qc then NegInfinity else PosInfinity
  | _, _ => NaN
  end.

(** [x * y]. *)
Definition number_mul (x y : number) : number :=
  match x, y with
  | Num a, Num b => Num (a * b)%Qc
  | (PosInfinity | NegInfinity) as i, Num b
  | Num b, ((PosInfinity | NegInfinity) as i) =>
      if decide (b = 0%Qc) then NaN
      else if decide (0 < b)%Qc then i
      else match i with PosInfinity => NegInfinity | _ => PosInfinity end
  | PosInfinity, PosInfinity | NegInfinity, NegInfinity => PosInfinity
  | PosInfinity, NegInfinity | NegInfinity, PosInfinity => NegInfinity
  | _, _ => NaN
  end.

(** [x + y]. *)
Definition number_add (x y : number) : number :=
  match x, y with
  | Num a, Num b => Num (a + b)%Qc
  | NaN, _ | _, NaN => NaN
  | PosInfinity, NegInfinity | NegInfinity, PosInfinity => NaN
  | PosInfinity, _ | _, PosInfinity => PosInfinity
  | NegInfinity, _ | _, NegInfinity => NegInfinity
  end.

Definition number_100 : number := number_of_nat 100.

(** ** Aggregate queries over one year's collection (lines 71-86) *)

(** Line 71, with the literal ['M.'] abstracted to [value]:
    [data.filter((d) => d.civility === value).length / data.length * 100],
    as the script computes it. *)
Definition percentageWithCivility_double (data : list EndorsementRecord)
    (value : string) : double :=
  double_mul
    (double_div
       (double_of_nat
          (length (List.filter (fun d => String.eqb (civility d) value) data)))
       (double_of_nat (length data)))
    (double_of_nat 100).

(** The same expression in exact arithmetic. *)
Definition percentageWithCivility (data : list EndorsementRecord)
    (value : string) : number :=
  number_mul
    (number_div
       (number_of_nat
          (length (List.filter (fun d => String.eqb (civility d) value) data)))
       (number_of_nat (length data)))
    number_100.

(** Line 77, with ['Maire'] abstracted:
    [data.filter((d) => d.mandate.includes(substring)).length]. *)
Definition countByMandateSubstring (data : list EndorsementRecord)
    (substring : string) : nat :=
  length (List.filter (fun d => includes (mandate d) substring) data).

(** Line 82, with the three literals abstracted:
    [data.filter((d) => d.candidate === cand && d.mandate.includes(substring)
                        && d.civility === civ).length]. *)
Definition countByCandidateAndCivilityAndMandate (data : list EndorsementRecord)
    (cand civ substring : string) : nat :=
  length
    (List.filter
       (fun d => String.eqb (candidate d) cand
                 && includes (mandate d) substring
                 && String.eqb (civility d) civ)
       data).

(** Line 86: [[...new Set(data.map((d) => d.candidate))]]. *)
Definition distinctCandidates (data : list EndorsementRecord) : list string :=
  new_Set (map candidate data).

(** ** The reduce idioms (lines 97-116) *)

Section ReduceIdioms.
(** The element type and the two operations [d * 2] and [d >= 4] are kept
    abstract: the idioms do not depend on how numbers behave. *)
Context {num : Type} (times2 : num -> num) (ge4 : num -> bool).

(** Line 104: [array.reduce((acc, d) => [...acc, d * 2], [])]. *)
Definition reduce_as_map (array : list num) : list num :=
  reduce (fun acc d => acc ++ [times2 d]) [] array.

(** Lines 109-114:
    [array.reduce((acc, d) => { if (d >= 4) return [...acc, d]; return acc; }, [])]. *)
Definition reduce_as_filter (array : list num) : list num :=
  reduce (fun acc d => if ge4 d then acc ++ [d] else acc) [] array.

End ReduceIdioms.

(** Line 97. *)
Definition array : list Z := [2; 3; 8; 6; 1; 7; 4; 5]%Z.

(** Line 98: [array.reduce((acc, d) => acc + d, 0)], on doubles. *)
Definition reduce_as_sum (xs : list double) : double :=
  reduce double_add (double_of_Z 0) xs.

(** ** The tally object of the join (lines 167-174)

    The accumulator starts as the object literal [{}], whose prototype is
    [Object.prototype].  [value] collects what a property read on it can
    produce and what the callback stores back. *)

Inductive value :=
| VUndefined
| VNumber (n : nat)
| VNaN
| VString (s : string)
| VFunction (fname : string)     (* a built-in method of [Object.prototype] *)
| VObjectPrototype.              (* [Object.prototype] itself *)

Global Instance value_eq_dec : EqDecision value.
Proof. solve_decision. Defined.

(** The function-valued properties every object literal inherits. *)
Definition Object_prototype_methods : list string :=
  [ "constructor"; "hasOwnProperty"; "isPrototypeOf"; "propertyIsEnumerable";
    "toLocaleString"; "toString"; "valueOf";
    "__defineGetter__"; "__defineSetter__"; "__lookupGetter__";
    "__lookupSetter__" ].

(** [Object.prototype[key]]: a method, the [__proto__] accessor (which on an
    object literal answers [Object.prototype]), or [undefined]. *)
Definition Object_prototype_get (key : string) : value :=
  if bool_decide (key ∈ Object_prototype_methods) then
    VFunction (if String.eqb key "constructor" then "Object" else key)
  else if String.eqb key "__proto__" then VObjectPrototype
  else VUndefined.

(** [acc[key]]: own property first, then the prototype. *)
Definition get (acc : gmap string value) (key : string) : value :=
  match acc !! key with
  | Some v => v
  | None => Object_prototype_get key
  end.

(** [acc[key] = v].  Assigning through the inherited [__proto__] setter
    changes the prototype when given an object and is ignored otherwise; the
    callback only ever assigns numbers and strings.  Every other key becomes
    (or updates) an own property. *)
Definition set (acc : gmap string value) (key : string) (v : value)
    : gmap string value :=
  if String.eqb key "__proto__" then acc else <[key := v]> acc.

(** ToBoolean. *)
Definition truthy (v : value) : bool :=
  match v with
  | VUndefined | VNaN => false
  | VNumber n => negb (Nat.eqb n 0)
  | VString s => negb (String.eqb s EmptyString)
  | VFunction _ | VObjectPrototype => true
  end.

(** [a || b]. *)
Definition or_else (a b : value) : value := if truthy a then a else b.

(** The text a built-in function converts to. *)
Definition function_source (fname : string) : string :=
  "function " +:+ fname +:+ "() { [native code] }".

(** [v + 1]: numeric addition on a number, [NaN] on [undefined], string
    concatenation with ["1"] on everything that converts to a string. *)
Definition plus_one (v : value) : value :=
  match v with
  | VNumber n => VNumber (n + 1)
  | VUndefined | VNaN => VNaN
  | VString s => VString (s +:+ "1")
  | VFunction f => VString (function_source f +:+ "1")
  | VObjectPrototype => VString "[object Object]1"
  end.

(** The reduce callback of lines 167-174. *)
Definition tally_step (data2017 : list EndorsementRecord)
    (acc : gmap string value) (d : EndorsementRecord) : gmap string value :=
  let sponsor2017 :=
    find (fun e => String.eqb (name e) (name d)
                   && String.eqb (constituency e) (constituency d)) data2017 in
  match sponsor2017 with
  | Some e =>
      let candidate2017 := candidate e in
      set acc candidate2017 (plus_one (or_else (get acc candidate2017) (VNumber 0)))
  | None => acc
  end.

(** Lines 167-174, with ['zemmour'] abstracted to [cand]:
    [data2022.filter((d) => d.candidate === cand).reduce(..., {})]. *)
Definition crossYearJoin (cand : string)
    (data2022 data2017 : list EndorsementRecord) : gmap string value :=
  reduce (tally_step data2017) ∅
    (List.filter (fun d => String.eqb (candidate d) cand) data2022).

(** ** Effects: network, file system, timers and the console

    The failures the script can meet are named after the operation that
    raises them: a rejected [fetch], a throwing [fs.readFileSync], a JSON
    body or file that does not parse. *)

Inductive error :=
| RetrievalError
| FileAccessError
| DecodeError.

(** What [console.log] is given. *)
Inductive output :=
| OutLength (n : nat)
| OutDouble (x : double)
| OutInts (zs : list Z)
| OutStrings (ss : list string)
| OutScraping (url : string)
| OutObject (o : gmap string value).

(** The operations the script performs, in the order it performs them.
    [Raise e] marks the point where an operation throws (or its promise
    rejects). *)
Inductive event :=
| Log (o : output)
| Fetch (url : string)
| Sleep (ms : nat)
| ReadFile (path : string)
| Raise (e : error).

(** The outside world.  Requests are numbered in the order they are issued,
    so that two requests to one URL may be answered differently.
    [net k url = None] is a request whose promise rejects; [latency k url]
    is the time after which it settles. *)
Record env := mkEnv {
  net : nat -> string -> option string;
  latency : nat -> string -> nat;
  disk : string -> option string;
  JSON_parse : string -> option (list EndorsementRecord)
}.

Record world := mkWorld {
  trace : list event;
  requests : nat
}.

Definition M (A : Type) : Type := env -> world -> (error + A) * world.

Global Instance M_ret : MRet M := fun A x _ w => (inr x, w).

(** Sequencing ([await], [;]): when the first part has raised, the second is
    not run.  The script has no [try]/[catch] and no [.catch]: a rejection
    that reaches the end of the async function is unhandled and ends the
    run. *)
Global Instance M_bind : MBind M := fun A B k m e w =>
  match m e w with
  | (inl err, w') => (inl err, w')
  | (inr x, w') => k x e w'
  end.

Definition emit (ev : event) : M unit := fun _ w =>
  (inr tt, mkWorld (trace w ++ [ev]) (requests w)).

(** [throw] / a rejected promise that is awaited. *)
Definition raise {A : Type} (err : error) : M A := fun _ w =>
  (inl err, mkWorld (trace w ++ [Raise err]) (requests w)).

Definition console_log (o : output) : M unit := emit (Log o).

(** [sleep(time)], line 127. *)
Definition sleep (time : nat) : M unit := emit (Sleep time).

(** A request in flight: [fetch(url).then((r) => r.text())] not yet awaited. *)
Record pending := mkPending {
  settles_after : nat;
  outcome : option string
}.

(** Calling [fetch(url)]: the request leaves at once.  The script never
    looks at the status of a response, so an answer is just its body. *)
Definition issue (url : string) : M pending := fun e w =>
  (inr (mkPending (latency e (requests w) url) (net e (requests w) url)),
   mkWorld (trace w ++ [Fetch url]) (S (requests w))).

(** An operation of the outside world that either answers or fails. *)
Definition or_raise {A : Type} (err : error) (answer : option A) : M A :=
  match answer with
  | Some x => mret x
  | None => raise err
  end.

(** [await] on a request in flight. *)
Definition await (p : pending) : M string :=
  or_raise RetrievalError (outcome p).

(** [await fetch(url).then((r) => r.text())]. *)
Definition fetch_text (url : string) : M string :=
  p ← issue url; await p.

(** [JSON.parse(text)] / [r.json()] on a body already received. *)
Definition parse (text : string) : M (list EndorsementRecord) := fun e =>
  or_raise DecodeError (JSON_parse e text) e.

(** [await fetch(url).then((r) => r.json())], line 65. *)
Definition fetch_json (url : string) : M (list EndorsementRecord) :=
  body ← fetch_text url; parse body.

(** [fs.readFileSync(path).toString()], line 158. *)
Definition readFileSync (path : string) : M string := fun e =>
  (emit (ReadFile path);; or_raise FileAccessError (disk e path)) e.

(** ** Batch retrieval (lines 120-146)

    Both modes run the same async callback.  Up to its first [await] it logs
    and issues the request ([scrape_start]); once the request has settled it
    sleeps and returns the body ([scrape_resume]). *)

Definition scrape_start (url : string) : M pending :=
  console_log (OutScraping url);; issue url.

Definition scrape_resume (p : pending) : M string :=
  html ← await p; sleep 2000;; mret html.

(** [urls.map(async (url) => ...)]: [map] calls the callback on every URL in
    turn, and each call runs synchronously up to its first [await]. *)
Fixpoint start_all (urls : list string) : M (list pending) :=
  match urls with
  | [] => mret []
  | url :: rest =>
      p ← scrape_start url; ps ← start_all rest; mret (p :: ps)
  end.

(** The order in which requests in flight settle: by latency. *)
Definition settles_before (a b : nat * pending) : Prop :=
  settles_after a.2 <= settles_after b.2.

Global Instance settles_before_dec a b : Decision (settles_before a b).
Proof. unfold settles_before. apply _. Defined.

Definition settle_order (ps : list pending) : list (nat * pending) :=
  merge_sort settles_before (imap pair ps).

(** [Promise.all]: every promise reports to its own position of the result
    array; the first rejection rejects the whole, and with it the run, while
    the requests that settle later are abandoned. *)
Fixpoint collect (settling : list (nat * pending))
    (values : list (option string)) : M (list (option string)) :=
  match settling with
  | [] => mret values
  | (i, p) :: rest =>
      html ← scrape_resume p; collect rest (<[i := Some html]> values)
  end.

Definition Promise_all (ps : list pending) : M (list string) :=
  values ← collect (settle_order ps) (replicate (length ps) None);
  mret (omap id values).

(** Lines 129-134. *)
Definition webpagesSimultaneous (urls : list string) : M (list string) :=
  ps ← start_all urls; Promise_all ps.

(** Lines 139-145: the accumulator of [reduce] is itself a promise. *)
Definition webpagesSequential (urls : list string) : M (list string) :=
  reduce
    (fun (promise : M (list string)) url =>
       pages ← promise;
       p ← scrape_start url;
       html ← scrape_resume p;
       mret (pages ++ [html]))
    (mret []) urls.

(** ** The script (lines 64-198) *)

Definition URL_2022 : string :=
  "https://media.lesechos.fr/infographie/embed-tracker-parrainages/data-2022.json".

Definition URLS : list string :=
  [ "https://example.com"; "https://tomfevrier.io"; "https://lesechos.fr" ].

Definition main : M unit :=
  data2022 ← fetch_json URL_2022;
  console_log (OutLength (length data2022));;
  console_log (OutDouble (percentageWithCivility_double data2022 "M."));;
  console_log (OutLength (countByMandateSubstring data2022 "Maire"));;
  console_log (OutLength
    (countByCandidateAndCivilityAndMandate data2022 "zemmour" "Mme" "Maire"));;
  console_log (OutStrings (distinctCandidates data2022));;
  console_log (OutDouble (reduce_as_sum (map double_of_Z array)));;
  console_log (OutInts (reduce_as_map (fun d => d * 2)%Z array));;
  console_log (OutInts (reduce_as_filter (fun d => 4 <=? d)%Z array));;
  simultaneous ← webpagesSimultaneous URLS;
  console_log (OutStrings simultaneous);;
  sequential ← webpagesSequential URLS;
  console_log (OutStrings sequential);;
  text2017 ← readFileSync "data-2017.json";
  data2017 ← parse text2017;
  console_log (OutObject (crossYearJoin "zemmour" data2022 data2017)).

(** Running a computation from a fresh world. *)
Definition run {A : Type} (m : M A) (e : env) : (error + A) * list event :=
  let '(r, w) := m e (mkWorld [] 0) in (r, trace w).

(** * Reference definitions

    The statements below compare the embedded expressions with these, which
    follow the wording of the documentation and not the code. *)

(** ** Counting *)

(** [count_of P l n]: exactly [n] elements of [l] satisfy [P]. *)
Inductive count_of {A : Type} (P : A -> Prop) : list A -> nat -> Prop :=
| count_of_nil : count_of P [] 0
| count_of_hit x l n : P x -> count_of P l n -> count_of P (x :: l) (S n)
| count_of_miss x l n : ~ P x -> count_of P l n -> count_of P (x :: l) n.

(** How many elements of a list satisfy a decidable property. *)
Fixpoint how_many {A : Type} (P : A -> Prop) `{forall x, Decision (P x)}
    (l : list A) : nat :=
  match l with
  | [] => 0
  | x :: l' => (if decide (P x) then 1 else 0) + how_many P l'
  end.

(** [sub] occurs somewhere inside [s], code unit for code unit. *)
Definition contains (s sub : string) : Prop :=
  exists before after, s = before +:+ sub +:+ after.

(** The three conditions of the question "how many women mayors endorsed
    this candidate". *)
Definition matches_all (cand civ substring : string) (d : EndorsementRecord)
    : Prop :=
  candidate d = cand /\ civility d = civ /\ contains (mandate d) substring.

(** ** Percentages *)

(** The rational [a / b * 100]. *)
Definition percent (a b : nat) : Qc :=
  (Qc_of_Z (Z.of_nat a) / Qc_of_Z (Z.of_nat b) * Qc_of_Z 100)%Qc.

(** The sum of a list of numbers. *)
Definition number_sum (xs : list number) : number :=
  reduce number_add (Num 0%Qc) xs.

(** ** The intended tally *)

(** The candidate the official behind record [d] endorsed in the prior year:
    that of the first prior-year record with the same name and the same
    constituency, if there is one. *)
Definition previous_candidate (data2017 : list EndorsementRecord)
    (d : EndorsementRecord) : option string :=
  candidate <$>
    find (fun e => String.eqb (name e) (name d)
                   && String.eqb (constituency e) (constituency d)) data2017.

(** [e] is the first record of [data2017] with the name and constituency of
    [d]. *)
Definition first_match (data2017 : list EndorsementRecord)
    (d e : EndorsementRecord) : Prop :=
  exists i,
    data2017 !! i = Some e
    /\ name e = name d /\ constituency e = constituency d
    /\ forall j e', j < i -> data2017 !! j = Some e' ->
                    ~ (name e' = name d /\ constituency e' = constituency d).

(** Counting one more endorsement for [key]: the entry is created at 1 or
    incremented. *)
Definition increment (key : string) (tally : gmap string nat) : gmap string nat :=
  <[key := S (default 0 (tally !! key))]> tally.

(** The tally the join is meant to build. *)
Definition tally_of (cand : string) (data2022 data2017 : list EndorsementRecord)
    : gmap string nat :=
  foldl
    (fun tally d =>
       match previous_candidate data2017 d with
       | Some key => increment key tally
       | None => tally
       end)
    ∅ (List.filter (fun d => String.eqb (candidate d) cand) data2022).

(** The sum of the counts of a tally. *)
Definition tally_total (tally : gmap string nat) : nat :=
  map_fold (fun _ n total => n + total) 0 tally.

(** A key that an object literal does not inherit: reading it on [{}] gives
    [undefined]. *)
Definition plain_key (key : string) : Prop :=
  Object_prototype_get key = VUndefined.

(** ** Batch retrieval *)

(** The requests in flight after [urls.map(async ...)] when [k] requests had
    been issued before. *)
Definition in_flight (e : env) (k : nat) (urls : list string) : list pending :=
  imap (fun i url => mkPending (latency e (k + i) url) (net e (k + i) url)) urls.

(** What [Promise.all] has stored once the given promises have reported. *)
Definition filled (settling : list (nat * pending))
    (values : list (option string)) : list (option string) :=
  foldl (fun vs ip => <[ip.1 := outcome ip.2]> vs) values settling.

(** ** Failures *)

(** No operation of [evs] has thrown. *)
Definition no_raise (evs : list event) : Prop :=
  forall err, Raise err ∉ evs.

(** A computation that never catches: when it fails with [err], the [Raise]
    of [err] is the first one of the events it added, and the last event it
    added; when it returns, none of the events it added is a [Raise]. *)
Definition propagates {A : Type} (m : M A) : Prop :=
  forall e w,
    match m e w with
    | (inl err, w') =>
        exists evs, trace w' = trace w ++ evs ++ [Raise err] /\ no_raise evs
    | (inr _, w') =>
        exists evs, trace w' = trace w ++ evs /\ no_raise evs
    end.

(** The URL of the [k]-th request of the script: the data set, then the three
    pages of the concurrent batch, then those of the sequential batch. *)
Definition request_url (k : nat) : string :=
  match k with
  | 0 => URL_2022
  | S k' => default EmptyString (URLS !! (k' mod 3))
  end.

(** Every operation of the script that can fail succeeds. *)
Definition everything_answers (e : env) : Prop :=
  (forall k, k <= 6 -> is_Some (net e k (request_url k)))
  /\ (forall body, net e 0 URL_2022 = Some body -> is_Some (JSON_parse e body))
  /\ (exists text, disk e "data-2017.json" = Some text
                   /\ is_Some (JSON_parse e text)).

(** ** Example data *)

(** The two collections of the end-to-end scenario of the documentation. *)
Definition example2022 : list EndorsementRecord :=
  [ mkRecord "A" "Mme" "Maire de Paris" "X1" "zemmour" ].

Definition example2017 : list EndorsementRecord :=
  [ sponsor "A" "X1" "fillon" ].

(** A prior-year collection in which the official of [example2022] endorsed a
    candidate whose identifier is the name of an inherited method, and one
    where it is the name of the inherited prototype accessor. *)
Definition inherited2017 : list EndorsementRecord :=
  [ sponsor "A" "X1" "constructor" ].

Definition proto2017 : list EndorsementRecord :=
  [ sponsor "A" "X1" "__proto__" ].

(** An outside world in which every request is answered with the URL in
    angle brackets, later requests settle sooner, the only file is the
    prior-year collection and both JSON texts parse. *)
Definition example_body (url : string) : string := "<" +:+ url +:+ ">".

Definition example_env : env :=
  mkEnv (fun _ url => Some (example_body url))
        (fun k _ => 10 - k)
        (fun path => if String.eqb path "data-2017.json" then Some "2017" else None)
        (fun text => if String.eqb text "2017" then Some example2017
                     else Some example2022).

(** A collection with [men] records of civility "M." followed by [women]
    records of civility "Mme". *)
Definition sample (men women : nat) : list EndorsementRecord :=
  replicate men (mkRecord "A" "M." "Maire" "X1" "zemmour")
  ++ replicate women (mkRecord "B" "Mme" "Maire" "X2" "zemmour").

(** * Further code of the script *)

(** ** The first two ways of using the promise (lines 42-59)

    Both fetch the data set, decode the response and log the number of
    records.  A response is handed on as its body. *)

(** Lines 42-50: [fetch(url).then((response) => response.json())
    .then((data) => { console.log(data.length); })]. *)
Definition option1_then : M unit :=
  (fetch_text URL_2022 ≫= parse)
    ≫= (fun data => console_log (OutLength (length data))).

(** Lines 54-59: [const response = await fetch(url);
    const data = await response.json(); console.log(data.length);]. *)
Definition option2_await : M unit :=
  response ← fetch_text URL_2022;
  data ← parse response;
  console_log (OutLength (length data)).

(** ** Further reference definitions *)

(** The values of [l] in the order of their first occurrence, leaving out
    those already [seen]. *)
Fixpoint firsts {A : Type} `{EqDecision A} (seen l : list A) : list A :=
  match l with
  | [] => []
  | x :: l' =>
      if decide (x ∈ seen) then firsts seen l' else x :: firsts (x :: seen) l'
  end.

(** What the callback of the join does to the tally for one selected
    record, as one function of the record. *)
Definition join_step (cand : string) (data2017 : list EndorsementRecord)
    (acc : gmap string value) (d : EndorsementRecord) : gmap string value :=
  if String.eqb (candidate d) cand then tally_step data2017 acc d else acc.

(** What the console and the network see when a batch starts its requests
    all at once, and when it handles one URL after the other. *)
Definition start_events (urls : list string) : list event :=
  flat_map (fun url => [Log (OutScraping url); Fetch url]) urls.

Definition one_by_one_events (urls : list string) : list event :=
  flat_map (fun url => [Log (OutScraping url); Fetch url; Sleep 2000]) urls.

(** An outside world like [example_env] in which the second request of a
    batch started on a fresh world fails. *)
Definition failing_env : env :=
  mkEnv (fun k url => if Nat.eqb k 1 then None else Some (example_body url))
        (latency example_env) (disk example_env) (JSON_parse example_env).

(** What a run logs about the current-year collection before it retrieves
    any page (lines 67-116). *)
Definition statistics_events (data2022 : list EndorsementRecord) : list event :=
  [ Log (OutLength (length data2022));
    Log (OutDouble (percentageWithCivility_double data2022 "M."));
    Log (OutLength (countByMandateSubstring data2022 "Maire"));
    Log (OutLength
           (countByCandidateAndCivilityAndMandate data2022 "zemmour" "Mme" "Maire"));
    Log (OutStrings (distinctCandidates data2022));
    Log (OutDouble (double_of_Z 36));
    Log (OutInts [4; 6; 16; 12; 2; 14; 8; 10]%Z);
    Log (OutInts [8; 6; 7; 4; 5]%Z) ].

(** The bodies answered to the requests for [urls] when they are issued in
    the order of the list and [k] requests had been issued before. *)
Definition answers (e : env) (k : nat) (urls : list string) : list string :=
  omap id (imap (fun i url => net e (k + i) url) urls).

(** [p] followed by [n] zero bits. *)
Definition shift (p : positive) (n : nat) : positive := Nat.iter n xO p.

(** Two current-year records whose officials endorsed different candidates
    in the prior year. *)
Definition two_records : list EndorsementRecord :=
  [ mkRecord "A" "Mme" "Maire de Paris" "X1" "zemmour";
    mkRecord "B" "M." "Maire de Lyon" "X2" "zemmour" ].

Definition two_prior : list EndorsementRecord :=
  [ sponsor "A" "X1" "fillon"; sponsor "B" "X2" "macron" ].

(** * Properties *)

(** ** Reduce idioms *)

Lemma reduce_snoc_map {A B : Type} (g : A -> B) (xs : list A) (acc : list B) :
  reduce (fun acc d => acc ++ [g d]) acc xs = acc ++ map g xs.
Proof.
  unfold reduce. revert acc.
  induction xs as [|x xs IH]; intros acc; simpl.
  - by rewrite app_nil_r.
  - rewrite IH, <- app_assoc. done.
Qed.

Lemma reduce_snoc_filter {A : Type} (keep : A -> bool) (xs acc : list A) :
  reduce (fun acc d => if keep d then acc ++ [d] else acc) acc xs
  = acc ++ List.filter keep xs.
Proof.
  unfold reduce. revert acc.
  induction xs as [|x xs IH]; intros acc; simpl.
  - by rewrite app_nil_r.
  - rewrite IH. destruct (keep x); [|done].
    rewrite <- app_assoc. done.
Qed.

(** C9. For every element type, doubling operation and threshold test, the
    reduce that appends [d * 2] to an accumulator starting empty returns the
    [map] of the array, and the reduce that appends [d] only when [d >= 4]
    returns the [filter] of the array; on integers this holds for every list,
    the array of line 97 included. *)
Theorem reduce_idioms_are_map_and_filter :
  (forall (num : Type) (times2 : num -> num) (ge4 : num -> bool) (xs : list num),
      reduce_as_map times2 xs = map times2 xs
      /\ reduce_as_filter ge4 xs = List.filter ge4 xs)
  /\ (forall xs : list Z,
         reduce_as_map (fun d => d * 2)%Z xs = map (fun d => d * 2)%Z xs
         /\ reduce_as_filter (fun d => 4 <=? d)%Z xs
            = List.filter (fun d => 4 <=? d)%Z xs)
  /\ reduce_as_map (fun d => d * 2)%Z array = [4; 6; 16; 12; 2; 14; 8; 10]%Z
  /\ reduce_as_filter (fun d => 4 <=? d)%Z array = [8; 6; 7; 4; 5]%Z.
Proof.
  assert (Hgen : forall (num : Type) (times2 : num -> num) (ge4 : num -> bool)
                        (xs : list num),
             reduce_as_map times2 xs = map times2 xs
             /\ reduce_as_filter ge4 xs = List.filter ge4 xs).
  { intros num times2 ge4 xs. unfold reduce_as_map, reduce_as_filter.
    by rewrite reduce_snoc_map, reduce_snoc_filter. }
  split; [exact Hgen|]. split; [intros xs; apply Hgen|].
  split; reflexivity.
Qed.

(** ** Distinct values *)

Section JsSetFacts.
Context {A : Type} `{EqDecision A}.

Lemma Set_add_NoDup (set : list A) (x : A) :
  NoDup set -> NoDup (Set_add set x).
Proof.
  intros Hnd. unfold Set_add. case_bool_decide as Hin; [done|].
  apply NoDup_app. split_and!; [done| |apply NoDup_singleton].
  intros y Hy ->%list_elem_of_singleton. done.
Qed.

Lemma elem_of_Set_add (set : list A) (x y : A) :
  y ∈ Set_add set x <-> y ∈ set \/ y = x.
Proof.
  unfold Set_add. case_bool_decide as Hin.
  - split; [by left|]. intros [?| ->]; done.
  - rewrite elem_of_app, list_elem_of_singleton. done.
Qed.

Lemma reduce_Set_add_NoDup (xs set : list A) :
  NoDup set -> NoDup (reduce Set_add set xs).
Proof.
  unfold reduce. revert set.
  induction xs as [|x xs IH]; intros set Hnd; simpl; [done|].
  apply IH, Set_add_NoDup, Hnd.
Qed.

Lemma elem_of_reduce_Set_add (xs set : list A) (y : A) :
  y ∈ reduce Set_add set xs <-> y ∈ set \/ y ∈ xs.
Proof.
  unfold reduce. revert set.
  induction xs as [|x xs IH]; intros set; simpl.
  - rewrite elem_of_nil. tauto.
  - rewrite IH, elem_of_Set_add, elem_of_cons. tauto.
Qed.

Lemma NoDup_new_Set (xs : list A) : NoDup (new_Set xs).
Proof. apply reduce_Set_add_NoDup, NoDup_nil_2. Qed.

Lemma elem_of_new_Set (xs : list A) (y : A) : y ∈ new_Set xs <-> y ∈ xs.
Proof.
  unfold new_Set. rewrite elem_of_reduce_Set_add, elem_of_nil. tauto.
Qed.

End JsSetFacts.

(** C7. [distinctCandidates] never lists a candidate twice, and every
    candidate it lists is the [candidate] field of some record of the
    collection. *)
Theorem distinctCandidates_NoDup_and_sound (data : list EndorsementRecord) :
  NoDup (distinctCandidates data)
  /\ forall c, c ∈ distinctCandidates data ->
               exists d, d ∈ data /\ candidate d = c.
Proof.
  split; [apply NoDup_new_Set|].
  intros c Hc. unfold distinctCandidates in Hc.
  apply elem_of_new_Set, list_elem_of_fmap in Hc as (d & -> & Hd).
  by exists d.
Qed.

(** ** Counting with three conditions *)

Lemma prefix_true_iff (sub s : string) :
  String.prefix sub s = true <-> exists after, s = sub +:+ after.
Proof.
  revert s. induction sub as [|a sub IH]; intros s.
  - split; [intros _; by exists s|by destruct s].
  - destruct s as [|b s].
    + split; [done|]. intros [after Heq]. done.
    + change (String.prefix (String a sub) (String b s))
        with (if Ascii.ascii_dec a b then String.prefix sub s else false).
      destruct (Ascii.ascii_dec a b) as [->|Hne].
      * rewrite IH. split; intros [after Heq]; exists after.
        -- by rewrite Heq.
        -- by injection Heq.
      * split; [done|]. intros [after Heq]. by injection Heq.
Qed.

Lemma includes_true_iff (s sub : string) :
  includes s sub = true <-> contains s sub.
Proof.
  unfold contains. induction s as [|a s IH]; cbn [includes].
  - rewrite orb_false_r, prefix_true_iff. split.
    + intros [after Heq]. by exists EmptyString, after.
    + intros (before & after & Heq). destruct before; [by exists after|done].
  - rewrite orb_true_iff, prefix_true_iff, IH. split.
    + intros [[after Heq]|(before & after & Heq)].
      * by exists EmptyString, after.
      * exists (String a before), after. by rewrite Heq.
    + intros (before & after & Heq). destruct before as [|b before].
      * left. by exists after.
      * right. exists before, after. by injection Heq.
Qed.

Lemma count_of_unique {A : Type} (P : A -> Prop) (l : list A) (n m : nat) :
  count_of P l n -> count_of P l m -> n = m.
Proof.
  intros Hn. revert m.
  induction Hn as [|x l n Hx _ IH|x l n Hx _ IH]; intros m Hm;
    inversion Hm; subst; try done.
  - f_equal. by apply IH.
  - by apply IH.
Qed.

Lemma count_of_filter {A : Type} (P : A -> Prop) (test : A -> bool)
    (l : list A) :
  (forall x, test x = true <-> P x) ->
  count_of P l (length (List.filter test l)).
Proof.
  intros Htest. induction l as [|x l IH]; simpl; [constructor|].
  destruct (test x) eqn:Hx; simpl.
  - apply count_of_hit; [by apply Htest|done].
  - apply count_of_miss; [|done].
    intros HP%Htest. congruence.
Qed.

Lemma matches_all_test (cand civ substring : string) (d : EndorsementRecord) :
  String.eqb (candidate d) cand && includes (mandate d) substring
    && String.eqb (civility d) civ = true
  <-> matches_all cand civ substring d.
Proof.
  unfold matches_all.
  rewrite !andb_true_iff, !String.eqb_eq, includes_true_iff. tauto.
Qed.

(** C6. [countByCandidateAndCivilityAndMandate] is the number of records
    whose candidate equals the given one, whose civility equals the given one
    and whose mandate contains the given substring, all three at once (and no
    other number is); the containment test distinguishes upper from lower
    case; on the example collection the count for "zemmour", "Mme", "Maire"
    is 1. *)
Theorem countByCandidateAndCivilityAndMandate_counts :
  (forall data cand civ substring,
      count_of (matches_all cand civ substring) data
        (countByCandidateAndCivilityAndMandate data cand civ substring)
      /\ forall n, count_of (matches_all cand civ substring) data n ->
                   n = countByCandidateAndCivilityAndMandate data cand civ substring)
  /\ countByCandidateAndCivilityAndMandate example2022 "zemmour" "Mme" "Maire" = 1
  /\ countByCandidateAndCivilityAndMandate example2022 "zemmour" "Mme" "maire" = 0.
Proof.
  split; [|split; reflexivity].
  intros data cand civ substring.
  assert (Hcount : count_of (matches_all cand civ substring) data
            (countByCandidateAndCivilityAndMandate data cand civ substring)).
  { apply count_of_filter. intros d. apply matches_all_test. }
  split; [done|].
  intros n Hn. by apply (count_of_unique _ _ _ _ Hn).
Qed.

(** ** Doubles that hold integers *)

Lemma shift_succ (p : positive) (n : nat) : shift p (S n) = xO (shift p n).
Proof. done. Qed.

Lemma iter_xO_shift (p k : positive) : Pos.iter xO p k = shift p (Pos.to_nat k).
Proof. apply Pos2Nat.inj_iter. Qed.

Lemma shift_shift (p : positive) (a b : nat) :
  shift (shift p a) b = shift p (a + b).
Proof. unfold shift. by rewrite Nat.add_comm, Nat.iter_add. Qed.

Lemma shift_add (a b : positive) (n : nat) :
  (shift a n + shift b n)%positive = shift (a + b) n.
Proof.
  induction n as [|n IH]; [done|]. rewrite !shift_succ, <- IH. done.
Qed.

Lemma digits_shift (p : positive) (n : nat) :
  Zpos (SpecFloat.digits2_pos (shift p n))
  = (Zpos (SpecFloat.digits2_pos p) + Z.of_nat n)%Z.
Proof.
  induction n as [|n IH]; [cbn; lia|].
  rewrite shift_succ. cbn [SpecFloat.digits2_pos]. lia.
Qed.

Lemma digits_size_nat (p : positive) :
  Zpos (SpecFloat.digits2_pos p) = Z.of_nat (Pos.size_nat p).
Proof. induction p as [p IH|p IH|]; cbn [SpecFloat.digits2_pos Pos.size_nat]; lia. Qed.

Lemma digits_bound (p : positive) (n : nat) :
  (Zpos p < 2 ^ Z.of_nat n)%Z -> (Zpos (SpecFloat.digits2_pos p) <= Z.of_nat n)%Z.
Proof.
  revert n. induction p as [p IH|p IH|]; intros n Hlt;
    cbn [SpecFloat.digits2_pos].
  - destruct n as [|n]; [cbn in Hlt; lia|].
    rewrite Nat2Z.inj_succ, Z.pow_succ_r in Hlt by lia.
    specialize (IH n). lia.
  - destruct n as [|n]; [cbn in Hlt; lia|].
    rewrite Nat2Z.inj_succ, Z.pow_succ_r in Hlt by lia.
    specialize (IH n). lia.
  - destruct n as [|n]; [cbn in Hlt; lia|]. lia.
Qed.

Lemma digits_mono (p q : positive) :
  (p <= q)%positive ->
  (Zpos (SpecFloat.digits2_pos p) <= Zpos (SpecFloat.digits2_pos q))%Z.
Proof.
  intros Hle. rewrite !digits_size_nat. apply Nat2Z.inj_le.
  destruct (Pos.eq_dec p q) as [->|Hne]; [done|].
  apply Pos.size_nat_monotone. lia.
Qed.

Lemma iter_pos_nat {A : Type} (f : A -> A) (k : positive) (x : A) :
  SpecFloat.iter_pos f k x = Nat.iter (Pos.to_nat k) f x.
Proof.
  revert x. induction k as [k IH|k IH|]; intros x; cbn [SpecFloat.iter_pos].
  - rewrite !IH, Pos2Nat.inj_xI. cbn [Nat.iter Nat.mul].
    rewrite Nat.add_0_r, <- Nat.iter_add. by rewrite <- Nat.iter_succ_r.
  - rewrite !IH, Pos2Nat.inj_xO. cbn [Nat.mul].
    by rewrite Nat.add_0_r, <- Nat.iter_add.
  - done.
Qed.

Lemma shr_shift (q : positive) (n : nat) :
  Nat.iter n SpecFloat.shr_1
    (SpecFloat.Build_shr_record (Zpos (shift q n)) false false)
  = SpecFloat.Build_shr_record (Zpos q) false false.
Proof.
  induction n as [|n IH]; [done|].
  rewrite Nat.iter_succ_r, shift_succ. exact IH.
Qed.

Lemma shl_align_down (m : positive) (e e' : Z) :
  (e' <= e)%Z ->
  SpecFloat.shl_align m e e' = (shift m (Z.to_nat (e - e')), e').
Proof.
  intros Hle. unfold SpecFloat.shl_align.
  destruct (Z.sub e' e) as [|d|d] eqn:Hd; [|lia|].
  - assert (e = e') as -> by lia. by rewrite Z.sub_diag.
  - rewrite iter_xO_shift. do 2 f_equal. lia.
Qed.

Lemma shl_align_up (m : positive) (e e' : Z) :
  (e <= e')%Z -> SpecFloat.shl_align m e e' = (m, e).
Proof.
  intros Hle. unfold SpecFloat.shl_align.
  destruct (Z.sub e' e) as [|d|d] eqn:Hd; [done|done|lia].
Qed.

Lemma fexp_53 (x : Z) :
  (-1021 <= x)%Z -> SpecFloat.fexp 53 1024 x = (x - 53)%Z.
Proof. intros Hx. unfold SpecFloat.fexp, SpecFloat.emin. lia. Qed.

(** Rounding a mantissa of 53 significant bits followed by [k] zero bits is
    exact. *)
Lemma binary_round_aux_exact (s : bool) (q : positive) (k : nat) (e : Z) :
  Zpos (SpecFloat.digits2_pos q) = 53%Z ->
  (-1074 <= e + Z.of_nat k <= 971)%Z ->
  SpecFloat.binary_round_aux 53 1024 s (Zpos (shift q k)) e SpecFloat.loc_Exact
  = SpecFloat.S754_finite s q (e + Z.of_nat k).
Proof.
  intros Hq Hrange. unfold SpecFloat.binary_round_aux, SpecFloat.shr_fexp.
  cbn [SpecFloat.Zdigits2 SpecFloat.shr_record_of_loc].
  rewrite digits_shift, Hq, fexp_53 by lia.
  replace (53 + Z.of_nat k + e - 53 - e)%Z with (Z.of_nat k) by lia.
  assert (Hshr : SpecFloat.shr
                   (SpecFloat.Build_shr_record (Zpos (shift q k)) false false)
                   e (Z.of_nat k)
                 = (SpecFloat.Build_shr_record (Zpos q) false false,
                    (e + Z.of_nat k)%Z)).
  { destruct k as [|k].
    - cbn. by rewrite Z.add_0_r.
    - change (Z.of_nat (S k)) with (Zpos (Pos.of_succ_nat k)).
      cbn [SpecFloat.shr].
      by rewrite iter_pos_nat, SuccNat2Pos.id_succ, shr_shift. }
  rewrite Hshr. cbn [SpecFloat.shr_m SpecFloat.loc_of_shr_record
                     SpecFloat.round_nearest_even SpecFloat.Zdigits2
                     SpecFloat.shr_record_of_loc].
  rewrite Hq, fexp_53 by lia.
  replace (53 + (e + Z.of_nat k) - 53 - (e + Z.of_nat k))%Z with 0%Z by lia.
  cbn [SpecFloat.shr SpecFloat.shr_m].
  replace (e + Z.of_nat k <=? 1024 - 53)%Z with true; [done|].
  symmetry. apply Z.leb_le. lia.
Qed.

(** The double of a positive integer below 2^53: the integer shifted to 53
    significant bits. *)
Lemma double_of_Z_pos (p : positive) :
  (Zpos (SpecFloat.digits2_pos p) <= 53)%Z ->
  double_of_Z (Zpos p)
  = SpecFloat.S754_finite false
      (shift p (Z.to_nat (53 - Zpos (SpecFloat.digits2_pos p))))
      (Zpos (SpecFloat.digits2_pos p) - 53).
Proof.
  intros Hd. unfold double_of_Z, SpecFloat.binary_normalize, SpecFloat.binary_round.
  rewrite Z.add_0_r, fexp_53 by lia.
  rewrite shl_align_down by lia. cbv beta iota.
  set (q := shift p _).
  etrans; [apply (binary_round_aux_exact false q 0)|].
  - subst q. rewrite digits_shift. lia.
  - lia.
  - subst q. f_equal; [f_equal; lia|lia].
Qed.

Lemma double_add_pos (a b : positive) :
  (Zpos (SpecFloat.digits2_pos (a + b)) <= 53)%Z ->
  double_add (double_of_Z (Zpos a)) (double_of_Z (Zpos b))
  = double_of_Z (Zpos (a + b)).
Proof.
  intros HD.
  pose proof (digits_mono a (a + b) ltac:(lia)) as Ha.
  pose proof (digits_mono b (a + b) ltac:(lia)) as Hb.
  set (da := Zpos (SpecFloat.digits2_pos a)) in *.
  set (db := Zpos (SpecFloat.digits2_pos b)) in *.
  set (D := Zpos (SpecFloat.digits2_pos (a + b))) in *.
  assert (Hda : (1 <= da)%Z) by (subst da; lia).
  assert (Hdb : (1 <= db)%Z) by (subst db; lia).
  rewrite !double_of_Z_pos by (fold da db D; lia). fold da db D.
  unfold double_add, SpecFloat.SFadd.
  set (ez := Z.min (da - 53) (db - 53)).
  rewrite !shl_align_down by (subst ez; lia).
  cbn [fst SpecFloat.cond_Zopp]. rewrite !shift_shift.
  replace (Z.to_nat (53 - da) + Z.to_nat (da - 53 - ez))
    with (Z.to_nat (- ez)) by (subst ez; lia).
  replace (Z.to_nat (53 - db) + Z.to_nat (db - 53 - ez))
    with (Z.to_nat (- ez)) by (subst ez; lia).
  change (Zpos ?x + Zpos ?y)%Z with (Zpos (x + y)).
  rewrite shift_add.
  unfold SpecFloat.binary_normalize, SpecFloat.binary_round.
  rewrite digits_shift. fold D.
  rewrite fexp_53 by (subst ez; lia).
  rewrite shl_align_up by (subst ez; lia). cbv beta iota.
  replace (shift (a + b) (Z.to_nat (- ez)))
    with (shift (shift (a + b) (Z.to_nat (53 - D)))
                (Z.to_nat (- ez - (53 - D)))).
  - rewrite binary_round_aux_exact.
    + f_equal. subst ez. lia.
    + rewrite digits_shift. fold D. lia.
    + subst ez. lia.
  - rewrite shift_shift. f_equal. subst ez. lia.
Qed.

(** Adding two non-negative integers whose sum is below 2^53 is exact. *)
Lemma double_add_exact (a b : Z) :
  (0 <= a)%Z -> (0 <= b)%Z -> (a + b < 2 ^ 53)%Z ->
  double_add (double_of_Z a) (double_of_Z b) = double_of_Z (a + b).
Proof.
  intros Ha Hb Hsum.
  destruct a as [|a|a], b as [|b|b]; try lia.
  - done.
  - rewrite Z.add_0_l, double_of_Z_pos by (by apply (digits_bound b 53)). done.
  - rewrite Z.add_0_r, double_of_Z_pos by (by apply (digits_bound a 53)). done.
  - apply double_add_pos. by apply (digits_bound (a + b) 53).
Qed.

Lemma double_add_nat (a b : nat) :
  (Z.of_nat (a + b) < 2 ^ 53)%Z ->
  double_add (double_of_nat a) (double_of_nat b) = double_of_nat (a + b).
Proof.
  intros Hsum. unfold double_of_nat.
  rewrite double_add_exact by lia. f_equal. lia.
Qed.

Lemma reduce_double_add_exact (xs : list nat) (acc : nat) :
  (Z.of_nat (acc + sum_list xs) < 2 ^ 53)%Z ->
  reduce double_add (double_of_nat acc) (map double_of_nat xs)
  = double_of_nat (acc + sum_list xs).
Proof.
  unfold reduce. revert acc.
  induction xs as [|x xs IH]; intros acc Hsum.
  - cbn. by rewrite Nat.add_0_r.
  - change (sum_list (x :: xs)) with (x + sum_list xs) in *.
    cbn [map fold_left].
    rewrite double_add_nat by lia.
    rewrite IH by (rewrite <- Nat.add_assoc; done).
    by rewrite Nat.add_assoc.
Qed.

Lemma double_of_nat_finite (n : nat) :
  0 < n -> (Z.of_nat n < 2 ^ 53)%Z ->
  exists m e,
    double_of_nat n = SpecFloat.S754_finite false m e
    /\ Zpos (SpecFloat.digits2_pos m) = 53%Z /\ (-52 <= e <= 0)%Z.
Proof.
  intros Hpos Hlt. unfold double_of_nat.
  destruct (Z.of_nat n) as [|p|p] eqn:Hn; [lia| |lia].
  pose proof (digits_bound p 53 Hlt) as Hd.
  rewrite double_of_Z_pos by done.
  eexists _, _. split; [done|]. rewrite digits_shift. lia.
Qed.

Lemma div_eucl_shift (m : positive) :
  Z.div_eucl (Z.shiftl (Zpos m) 53) (Zpos m) = ((2 ^ 53)%Z, 0%Z).
Proof.
  rewrite Z.shiftl_mul_pow2, Z.mul_comm by lia.
  pose proof (Z.div_mul (2 ^ 53) (Zpos m) ltac:(lia)) as Hdiv.
  pose proof (Z.mod_mul (2 ^ 53) (Zpos m) ltac:(lia)) as Hmod.
  unfold Z.div, Z.modulo in Hdiv, Hmod.
  destruct (Z.div_eucl (2 ^ 53 * Zpos m) (Zpos m)) as [q r].
  by subst.
Qed.

(** A double that holds a positive integer, divided by itself, is 1. *)
Lemma double_div_self (s : bool) (m : positive) (e : Z) :
  Zpos (SpecFloat.digits2_pos m) = 53%Z -> (-1000 <= e <= 900)%Z ->
  double_div (SpecFloat.S754_finite s m e) (SpecFloat.S754_finite s m e)
  = double_of_Z 1.
Proof.
  intros Hm He. unfold double_div, SpecFloat.SFdiv, SpecFloat.SFdiv_core_binary.
  cbn [SpecFloat.Zdigits2]. rewrite Hm.
  replace (53 + e - (53 + e))%Z with 0%Z by lia.
  rewrite Z.sub_diag.
  change (Z.min (SpecFloat.fexp 53 1024 0) 0) with (-53)%Z.
  change (0 - -53)%Z with 53%Z. cbv beta iota zeta.
  rewrite div_eucl_shift. unfold SpecFloat.new_location.
  destruct (Z.even (Zpos m)), s; reflexivity.
Qed.


(** ** Percentages *)

Lemma length_filter_civility (data : list EndorsementRecord) (v : string) :
  length (List.filter (fun d => String.eqb (civility d) v) data)
  = how_many (fun d => civility d = v) data.
Proof.
  induction data as [|d data IH]; [done|]. cbn [List.filter how_many].
  destruct (String.eqb_spec (civility d) v) as [Heq|Hne].
  - rewrite decide_True by done. cbn. by rewrite IH.
  - rewrite decide_False by done. done.
Qed.

Lemma how_many_le_length {A : Type} (P : A -> Prop) `{forall x, Decision (P x)}
    (l : list A) :
  how_many P l <= length l.
Proof.
  induction l as [|x l IH]; cbn; [lia|]. case_decide; lia.
Qed.

Lemma Qc_of_nat_eq_0 (n : nat) : Qc_of_Z (Z.of_nat n) = 0%Qc <-> n = 0.
Proof.
  rewrite <- Z2Qc_inj_0, Z2Qc_inj_iff. lia.
Qed.

Lemma percentageWithCivility_nonempty (data : list EndorsementRecord) (v : string) :
  data <> [] ->
  percentageWithCivility data v
  = Num (percent (how_many (fun d => civility d = v) data) (length data)).
Proof.
  intros Hne. unfold percentageWithCivility, number_100, number_of_nat.
  rewrite length_filter_civility. cbn [number_div].
  rewrite decide_False; [done|].
  rewrite Qc_of_nat_eq_0. by destruct data.
Qed.

(** C3. The percentage of line 71, as the script computes it on doubles, is
    the number of records whose civility equals the given value, divided by
    the number of records, times 100, each operation rounded to the nearest
    double.  It is [NaN] on the empty collection, exactly 0 when no record
    has the value and exactly 100 when every record has it (for fewer than
    2^53 records); in between it is the rounded value, as for 7 of 25
    records (28.000000000000004) and 1 of 3 records (33.33333333333333). *)
Theorem percentageWithCivility_is_count_over_total :
  (forall data v,
      percentageWithCivility_double data v
      = double_mul
          (double_div (double_of_nat (how_many (fun d => civility d = v) data))
                      (double_of_nat (length data)))
          (double_of_nat 100))
  /\ (forall v, percentageWithCivility_double [] v = SpecFloat.S754_nan)
  /\ (forall data v,
         data <> [] -> (Z.of_nat (length data) < 2 ^ 53)%Z ->
         (forall d, d ∈ data -> civility d <> v) ->
         percentageWithCivility_double data v = double_of_nat 0)
  /\ (forall data v,
         data <> [] -> (Z.of_nat (length data) < 2 ^ 53)%Z ->
         (forall d, d ∈ data -> civility d = v) ->
         percentageWithCivility_double data v = double_of_nat 100)
  /\ percentageWithCivility_double (sample 7 18) "M."
     = SpecFloat.S754_finite false 7881299347898369 (-48)
  /\ percentageWithCivility_double (sample 1 2) "M."
     = SpecFloat.S754_finite false 4691249611844266 (-47).
Proof.
  assert (Hformula : forall data v,
      percentageWithCivility_double data v
      = double_mul
          (double_div (double_of_nat (how_many (fun d => civility d = v) data))
                      (double_of_nat (length data)))
          (double_of_nat 100)).
  { intros data v. unfold percentageWithCivility_double.
    by rewrite length_filter_civility. }
  split_and!; [exact Hformula|done| | |by vm_compute|by vm_compute].
  - intros data v Hne Hlt Hnone. rewrite Hformula.
    replace (how_many (fun d => civility d = v) data) with 0.
    + destruct (double_of_nat_finite (length data)) as (m & e & -> & _ & _);
        [destruct data; [done|cbn; lia]|done|done].
    + symmetry. clear -Hnone. induction data as [|d data IH]; [done|].
      cbn. rewrite decide_False by (apply Hnone, list_elem_of_here).
      apply IH. intros d' Hd'. by apply Hnone, list_elem_of_further.
  - intros data v Hne Hlt Hall. rewrite Hformula.
    replace (how_many (fun d => civility d = v) data) with (length data).
    + destruct (double_of_nat_finite (length data)) as (m & e & -> & Hm & He);
        [destruct data; [done|cbn; lia]|done|].
      rewrite double_div_self by (done || lia). by vm_compute.
    + symmetry. clear -Hall. induction data as [|d data IH]; [done|].
      cbn. rewrite decide_True by (apply Hall, list_elem_of_here).
      f_equal. apply IH. intros d' Hd'. by apply Hall, list_elem_of_further.
Qed.

(** C5. On an empty collection [percentageWithCivility] is [NaN], the result
    of the unguarded division 0 / 0; it is not the number 0, nor any other
    number. *)
Theorem percentageWithCivility_empty_is_NaN (v : string) :
  percentageWithCivility [] v = NaN
  /\ percentageWithCivility [] v <> Num 0%Qc
  /\ forall q, percentageWithCivility [] v <> Num q.
Proof.
  assert (H : percentageWithCivility [] v = NaN) by reflexivity.
  rewrite H. split_and!; [done|done|]. intros q. done.
Qed.

Lemma percent_range (a b : nat) :
  b <> 0 -> a <= b -> (0 <= percent a b)%Qc /\ (percent a b <= Qc_of_Z 100)%Qc.
Proof.
  intros Hb Hab. unfold percent.
  set (A := Qc_of_Z (Z.of_nat a)). set (B := Qc_of_Z (Z.of_nat b)).
  assert (HA : (0 <= A)%Qc).
  { rewrite <- Z2Qc_inj_0. apply (proj1 (Z2Qc_inj_le _ _)). lia. }
  assert (HB : (0 < B)%Qc).
  { rewrite <- Z2Qc_inj_0. apply (proj1 (Z2Qc_inj_lt _ _)). lia. }
  assert (HAB : (A <= B)%Qc) by (apply (proj1 (Z2Qc_inj_le _ _)); lia).
  assert (H100 : (0 <= Qc_of_Z 100)%Qc).
  { rewrite <- Z2Qc_inj_0. by apply (proj1 (Z2Qc_inj_le _ _)). }
  assert (Hinv : (0 <= / B)%Qc) by (apply Qclt_le_weak, Qcinv_pos, HB).
  assert (Hq0 : (0 <= A / B)%Qc) by (by apply Qcmult_nonneg_nonneg).
  assert (Hq1 : (A / B <= 1)%Qc).
  { rewrite <- (Qcmult_inv_r B) by (intros ->; by apply (Qclt_not_eq 0 0)).
    by apply Qcmult_le_mono_nonneg_r. }
  split.
  - by apply Qcmult_nonneg_nonneg.
  - rewrite <- (Qcmult_1_l (Qc_of_Z 100)) at 2.
    by apply Qcmult_le_mono_nonneg_r.
Qed.

Lemma percent_add (a b n : nat) :
  (percent a n + percent b n)%Qc = percent (a + b) n.
Proof.
  unfold percent. rewrite Nat2Z.inj_add, Z2Qc_inj_add.
  unfold Qcdiv. ring.
Qed.

Lemma percent_zero (n : nat) : percent 0 n = 0%Qc.
Proof.
  unfold percent, Qcdiv. change (Z.of_nat 0) with 0%Z.
  rewrite Z2Qc_inj_0. ring.
Qed.

Lemma percent_full (n : nat) : n <> 0 -> percent n n = Qc_of_Z 100.
Proof.
  intros Hn. unfold percent, Qcdiv.
  rewrite Qcmult_inv_r by (by rewrite Qc_of_nat_eq_0).
  apply Qcmult_1_l.
Qed.

Lemma number_sum_percent (count : string -> nat) (n : nat) (vs : list string)
    (a : nat) :
  reduce number_add (Num (percent a n))
    (map (fun v => Num (percent (count v) n)) vs)
  = Num (percent (a + sum_list_with count vs) n).
Proof.
  unfold reduce. revert a.
  induction vs as [|v vs IH]; intros a; cbn.
  - by rewrite Nat.add_0_r.
  - rewrite percent_add, IH. by rewrite Nat.add_assoc.
Qed.

Lemma sum_indicator (x : string) (vs : list string) :
  NoDup vs -> x ∈ vs ->
  sum_list_with (fun v => if decide (x = v) then 1 else 0) vs = 1.
Proof.
  induction 1 as [|v vs Hv Hnd IH]; intros Hx; [by apply elem_of_nil in Hx|].
  cbn. apply elem_of_cons in Hx as [->|Hx].
  - rewrite decide_True by done.
    assert (Hz : sum_list_with (fun v0 => if decide (v = v0) then 1 else 0) vs = 0).
    { clear IH Hnd. induction vs as [|w vs IH]; [done|]. cbn.
      apply not_elem_of_cons in Hv as [Hne Hv].
      rewrite decide_False by done. by rewrite IH. }
    lia.
  - rewrite decide_False by (intros ->; done). by rewrite IH.
Qed.

Lemma sum_list_with_add {A : Type} (f g : A -> nat) (l : list A) :
  sum_list_with (fun x => f x + g x) l = sum_list_with f l + sum_list_with g l.
Proof. induction l as [|x l IH]; cbn; [done|]. rewrite IH. lia. Qed.

Lemma sum_how_many_civility (data : list EndorsementRecord) (vs : list string) :
  NoDup vs -> (forall d, d ∈ data -> civility d ∈ vs) ->
  sum_list_with (fun v => how_many (fun d => civility d = v) data) vs
  = length data.
Proof.
  intros Hnd. induction data as [|d data IH]; intros Hin; cbn [how_many length].
  - clear. induction vs as [|v vs IHvs]; [done|]. by cbn.
  - rewrite sum_list_with_add, IH, sum_indicator; [done|done| |].
    + apply Hin, list_elem_of_here.
    + intros d' Hd'. by apply Hin, list_elem_of_further.
Qed.

(** C4. On a collection with at least one record, [percentageWithCivility]
    is a number between 0 and 100 for every civility value, and the
    percentages of the distinct civility values occurring in the collection
    add up to 100 (in exact rational arithmetic). *)
Theorem percentageWithCivility_range_and_total (data : list EndorsementRecord) :
  data <> [] ->
  (forall v, exists q,
      percentageWithCivility data v = Num q
      /\ (0 <= q)%Qc /\ (q <= Qc_of_Z 100)%Qc)
  /\ number_sum (map (percentageWithCivility data) (new_Set (map civility data)))
     = Num (Qc_of_Z 100).
Proof.
  intros Hne.
  assert (Hlen : length data <> 0) by (by destruct data).
  split.
  - intros v. eexists. split; [by apply percentageWithCivility_nonempty|].
    apply percent_range; [done|apply how_many_le_length].
  - unfold number_sum.
    rewrite (map_ext _ (fun v => Num (percent
               (how_many (fun d => civility d = v) data) (length data))))
      by (intros v; by apply percentageWithCivility_nonempty).
    replace (Num 0%Qc) with (Num (percent 0 (length data)))
      by (by rewrite percent_zero).
    rewrite number_sum_percent, sum_how_many_civility.
    + cbn [Nat.add]. by rewrite percent_full.
    + apply NoDup_new_Set.
    + intros d Hd. apply elem_of_new_Set, list_elem_of_fmap. by exists d.
Qed.

(** The example collection is not empty, and its percentages add up to 100. *)
Lemma percentageWithCivility_range_and_total_witness :
  example2022 <> []
  /\ number_sum (map (percentageWithCivility example2022)
                     (new_Set (map civility example2022)))
     = Num (Qc_of_Z 100).
Proof.
  split; [discriminate|].
  apply (percentageWithCivility_range_and_total example2022). discriminate.
Defined.

(** ** The join *)

Lemma get_plain (t : gmap string nat) (key : string) :
  plain_key key ->
  or_else (get (VNumber <$> t) key) (VNumber 0)
  = VNumber (default 0 (t !! key)).
Proof.
  intros Hplain. unfold get. rewrite lookup_fmap.
  destruct (t !! key) as [n|]; cbn.
  - by destruct n.
  - by rewrite Hplain.
Qed.

Lemma plain_key_not_proto (key : string) :
  plain_key key -> String.eqb key "__proto__" = false.
Proof.
  unfold plain_key, Object_prototype_get. intros Hplain.
  destruct (String.eqb key "__proto__") eqn:Heq; [|done].
  apply String.eqb_eq in Heq. subst key. by vm_compute in Hplain.
Qed.

Lemma tally_step_plain (data2017 : list EndorsementRecord)
    (t : gmap string nat) (d : EndorsementRecord) :
  (forall e, e ∈ data2017 -> plain_key (candidate e)) ->
  tally_step data2017 (VNumber <$> t) d
  = VNumber <$> match previous_candidate data2017 d with
                | Some key => increment key t
                | None => t
                end.
Proof.
  intros Hplain. unfold tally_step, previous_candidate, find.
  destruct (List.find _ data2017) as [e|] eqn:Hfind; cbn; [|done].
  apply find_some in Hfind as [He%list_elem_of_In _].
  specialize (Hplain e He).
  rewrite get_plain by done. unfold set, increment.
  rewrite plain_key_not_proto by done.
  rewrite fmap_insert. cbn. by rewrite Nat.add_1_r.
Qed.

(** As long as no prior-year candidate is named like a property every object
    inherits, the join builds the intended tally. *)
Lemma crossYearJoin_plain (cand : string)
    (data2022 data2017 : list EndorsementRecord) :
  (forall e, e ∈ data2017 -> plain_key (candidate e)) ->
  crossYearJoin cand data2022 data2017
  = VNumber <$> tally_of cand data2022 data2017.
Proof.
  intros Hplain. unfold crossYearJoin, tally_of, reduce.
  rewrite <- (fmap_empty VNumber).
  generalize (∅ : gmap string nat) as t.
  induction (List.filter _ data2022) as [|d ds IH]; intros t; cbn; [done|].
  rewrite tally_step_plain by done. apply IH.
Qed.

Lemma previous_candidate_Some (data2017 : list EndorsementRecord)
    (d : EndorsementRecord) (key : string) :
  previous_candidate data2017 d = Some key
  <-> exists e, first_match data2017 d e /\ candidate e = key.
Proof.
  unfold previous_candidate, find, first_match.
  induction data2017 as [|e0 rest IH]; cbn.
  - split; [done|]. intros (e & (i & Hi & _) & _). by destruct i.
  - destruct (String.eqb_spec (name e0) (name d)) as [Hn|Hn];
      [destruct (String.eqb_spec (constituency e0) (constituency d)) as [Hc|Hc]|];
      cbn.
    + split.
      * intros [= <-]. exists e0. split; [|done].
        exists 0. split_and!; [done..|]. intros j e' Hj. lia.
      * intros (e & (i & Hi & _ & _ & Hfirst) & <-).
        destruct i as [|i]; [by injection Hi as ->|].
        destruct (Hfirst 0 e0); [lia|done|done].
    + rewrite IH. split.
      * intros (e & (i & Hi & Hne & Hce & Hfirst) & <-).
        exists e. split; [|done]. exists (S i). split_and!; [done..|].
        intros [|j] e' Hj Hj'; [injection Hj' as <-; tauto|].
        apply (Hfirst j); [lia|done].
      * intros (e & (i & Hi & Hne & Hce & Hfirst) & <-).
        destruct i as [|i]; [injection Hi as ->; tauto|].
        exists e. split; [|done]. exists i. split_and!; [done..|].
        intros j e' Hj Hj'. apply (Hfirst (S j)); [lia|done].
    + rewrite IH. split.
      * intros (e & (i & Hi & Hne & Hce & Hfirst) & <-).
        exists e. split; [|done]. exists (S i). split_and!; [done..|].
        intros [|j] e' Hj Hj'; [injection Hj' as <-; tauto|].
        apply (Hfirst j); [lia|done].
      * intros (e & (i & Hi & Hne & Hce & Hfirst) & <-).
        destruct i as [|i]; [injection Hi as ->; tauto|].
        exists e. split; [|done]. exists i. split_and!; [done..|].
        intros j e' Hj Hj'. apply (Hfirst (S j)); [lia|done].
Qed.

Lemma previous_candidate_None (data2017 : list EndorsementRecord)
    (d : EndorsementRecord) :
  previous_candidate data2017 d = None
  <-> forall e, e ∈ data2017 ->
                ~ (name e = name d /\ constituency e = constituency d).
Proof.
  unfold previous_candidate, find. rewrite fmap_None. split.
  - intros Hnone e He%list_elem_of_In Hsame.
    pose proof (find_none _ _ Hnone e He) as Htest. cbn in Htest.
    destruct Hsame as [Hn Hc].
    apply andb_false_iff in Htest as [Htest|Htest];
      apply String.eqb_neq in Htest; done.
  - intros Hall. destruct (List.find _ data2017) as [e|] eqn:Hfind; [|done].
    apply find_some in Hfind as [He%list_elem_of_In Htest].
    apply andb_true_iff in Htest as [Hn%String.eqb_eq Hc%String.eqb_eq].
    destruct (Hall e He). done.
Qed.

Lemma tally_total_insert (t : gmap string nat) (key : string) (n : nat) :
  t !! key = None -> tally_total (<[key := n]> t) = n + tally_total t.
Proof.
  intros Hnone. unfold tally_total.
  rewrite map_fold_insert_L; [done| |done]. intros; lia.
Qed.

Lemma tally_total_increment (t : gmap string nat) (key : string) :
  tally_total (increment key t) = S (tally_total t).
Proof.
  unfold increment. destruct (t !! key) as [n|] eqn:Hkey; cbn.
  - rewrite <- insert_delete_eq.
    rewrite tally_total_insert by apply lookup_delete_eq.
    unfold tally_total at 2.
    rewrite (map_fold_delete_L _ _ key n t); [|intros; lia|done].
    fold (tally_total (delete key t)). lia.
  - by rewrite tally_total_insert.
Qed.

Section TallyFacts.
Context (data2017 : list EndorsementRecord).

Let step (tally : gmap string nat) (d : EndorsementRecord) : gmap string nat :=
  match previous_candidate data2017 d with
  | Some key => increment key tally
  | None => tally
  end.

Lemma foldl_step_lookup (ds : list EndorsementRecord) (t : gmap string nat)
    (key : string) :
  foldl step t ds !! key
  = match how_many (fun d => previous_candidate data2017 d = Some key) ds with
    | 0 => t !! key
    | S n => Some (default 0 (t !! key) + S n)
    end.
Proof.
  revert t. induction ds as [|d ds IH]; intros t; [done|].
  cbn [foldl how_many]. rewrite IH. unfold step.
  destruct (previous_candidate data2017 d) as [k|] eqn:Hprev.
  - unfold increment. destruct (decide (k = key)) as [->|Hne].
    + rewrite decide_True by done. rewrite lookup_insert_eq. cbn.
      destruct (how_many _ ds); f_equal; lia.
    + rewrite decide_False by congruence.
      by rewrite lookup_insert_ne by done.
  - by rewrite decide_False by done.
Qed.

Lemma foldl_step_total (ds : list EndorsementRecord) (t : gmap string nat) :
  tally_total (foldl step t ds)
  = tally_total t
    + how_many (fun d => is_Some (previous_candidate data2017 d)) ds.
Proof.
  revert t. induction ds as [|d ds IH]; intros t; cbn [foldl how_many]; [lia|].
  rewrite IH. unfold step.
  destruct (previous_candidate data2017 d) as [k|] eqn:Hprev.
  - rewrite tally_total_increment, decide_True by done. lia.
  - rewrite decide_False by (by intros []). lia.
Qed.

End TallyFacts.

Lemma how_many_filter (cand : string) (P : EndorsementRecord -> Prop)
    `{forall d, Decision (P d)} (data : list EndorsementRecord) :
  how_many P (List.filter (fun d => String.eqb (candidate d) cand) data)
  = how_many (fun d => candidate d = cand /\ P d) data.
Proof.
  induction data as [|d data IH]; [done|]. cbn [List.filter].
  destruct (String.eqb_spec (candidate d) cand) as [Heq|Hne]; cbn [how_many].
  - rewrite IH. repeat case_decide; tauto || lia.
  - rewrite IH. rewrite (decide_False (P := _ /\ _)) by tauto. done.
Qed.

(** The intended tally, key by key: the entry for [key] is the number of
    records of the chosen candidate whose official endorsed [key] before, and
    there is no entry when that number is zero. *)
Lemma tally_of_lookup (cand : string)
    (data2022 data2017 : list EndorsementRecord) (key : string) :
  tally_of cand data2022 data2017 !! key
  = match how_many (fun d => candidate d = cand
                             /\ previous_candidate data2017 d = Some key)
                   data2022 with
    | 0 => None
    | S n => Some (S n)
    end.
Proof.
  unfold tally_of. rewrite foldl_step_lookup, how_many_filter.
  by rewrite lookup_empty.
Qed.

Lemma tally_of_positive (cand : string)
    (data2022 data2017 : list EndorsementRecord) (key : string) (n : nat) :
  tally_of cand data2022 data2017 !! key = Some n -> 1 <= n.
Proof.
  rewrite tally_of_lookup. destruct (how_many _ _); [done|].
  intros [= <-]. lia.
Qed.

Lemma tally_of_total (cand : string)
    (data2022 data2017 : list EndorsementRecord) :
  tally_total (tally_of cand data2022 data2017)
  = how_many (fun d => candidate d = cand
                       /\ is_Some (previous_candidate data2017 d)) data2022.
Proof.
  unfold tally_of. rewrite foldl_step_total, how_many_filter.
  unfold tally_total. by rewrite map_fold_empty.
Qed.

(** Whatever the keys, a record without a prior-year match leaves the tally
    untouched, and nothing selected gives the empty object. *)
Lemma tally_step_unmatched (data2017 : list EndorsementRecord)
    (acc : gmap string value) (d : EndorsementRecord) :
  (forall e, e ∈ data2017 ->
             ~ (name e = name d /\ constituency e = constituency d)) ->
  tally_step data2017 acc d = acc.
Proof.
  intros Hnone%previous_candidate_None. unfold tally_step.
  unfold previous_candidate in Hnone. apply fmap_None in Hnone.
  by rewrite Hnone.
Qed.

Lemma crossYearJoin_nothing_selected (cand : string)
    (data2022 data2017 : list EndorsementRecord) :
  (forall d, d ∈ data2022 -> candidate d <> cand) ->
  crossYearJoin cand data2022 data2017 = ∅.
Proof.
  intros Hnone. unfold crossYearJoin.
  replace (List.filter _ data2022) with (@nil EndorsementRecord); [done|].
  induction data2022 as [|d ds IH]; [done|]. cbn.
  destruct (String.eqb_spec (candidate d) cand) as [Heq|Hne].
  - destruct (Hnone d); [apply list_elem_of_here|done].
  - apply IH. intros d' Hd'. by apply Hnone, list_elem_of_further.
Qed.

Lemma crossYearJoin_example :
  crossYearJoin "zemmour" example2022 example2017 = {[ "fillon" := VNumber 1 ]}.
Proof. by vm_compute. Qed.

(** With plain keys every entry of the join is an integer that is at least
    1, and the entries add up to the number of selected records that have a
    prior-year match. *)
Lemma crossYearJoin_plain_invariant (cand : string)
    (data2022 data2017 : list EndorsementRecord) :
  (forall e, e ∈ data2017 -> plain_key (candidate e)) ->
  (forall key v, crossYearJoin cand data2022 data2017 !! key = Some v ->
                 exists n, v = VNumber n /\ 1 <= n)
  /\ exists t : gmap string nat,
       crossYearJoin cand data2022 data2017 = VNumber <$> t
       /\ tally_total t
          = how_many (fun d => candidate d = cand
                               /\ is_Some (previous_candidate data2017 d))
              data2022.
Proof.
  intros Hplain. rewrite crossYearJoin_plain by done. split.
  - intros key v. rewrite lookup_fmap.
    destruct (tally_of _ _ _ !! key) as [n|] eqn:Hn; [|done].
    intros [= <-]. exists n. split; [done|]. by eapply tally_of_positive.
  - eexists. split; [done|]. apply tally_of_total.
Qed.

(** C1. The join on the failing input: the only selected record has a
    prior-year match whose candidate is "constructor"; the first occurrence
    does not create the entry at 1 but at the text of the inherited function
    followed by "1", and a second occurrence appends another "1". *)
Theorem crossYearJoin_inherited_method_key :
  crossYearJoin "zemmour" example2022 inherited2017
  = {[ "constructor" := VString "function Object() { [native code] }1" ]}
  /\ tally_of "zemmour" example2022 inherited2017 = {[ "constructor" := 1 ]}
  /\ crossYearJoin "zemmour" (example2022 ++ example2022) inherited2017
     = {[ "constructor" := VString "function Object() { [native code] }11" ]}.
Proof. split_and!; by vm_compute. Qed.

(** C10. The invariant on the failing inputs: with the prior-year candidate
    "constructor" the only value of the tally is a string, not an integer;
    with the prior-year candidate "__proto__" the tally stays empty, so its
    values add up to 0 although one selected record has a prior-year
    match. *)
Theorem crossYearJoin_invariant_broken :
  map_to_list (crossYearJoin "zemmour" example2022 inherited2017)
  = [ ("constructor", VString "function Object() { [native code] }1") ]
  /\ crossYearJoin "zemmour" example2022 proto2017 = ∅
  /\ how_many (fun d => candidate d = "zemmour"
                        /\ is_Some (previous_candidate proto2017 d))
       example2022 = 1.
Proof. split_and!; by vm_compute. Qed.

(** ** Batch retrieval *)

Lemma filled_cons i p rest values :
  filled ((i, p) :: rest) values = filled rest (<[i := outcome p]> values).
Proof. done. Qed.

Lemma length_filled settling values :
  length (filled settling values) = length values.
Proof.
  revert values. induction settling as [|[i p] rest IH]; intros values; [done|].
  by rewrite filled_cons, IH, length_insert.
Qed.

Lemma filled_lookup_other settling values (j : nat) :
  j ∉ settling.*1 -> filled settling values !! j = values !! j.
Proof.
  revert values. induction settling as [|[i p] rest IH]; intros values Hj; [done|].
  rewrite fmap_cons in Hj. apply not_elem_of_cons in Hj as [Hne Hj].
  rewrite filled_cons, IH by done. by apply list_lookup_insert_ne.
Qed.

Lemma filled_lookup settling values (j : nat) (p : pending) :
  NoDup settling.*1 -> (j, p) ∈ settling -> j < length values ->
  filled settling values !! j = Some (outcome p).
Proof.
  revert values. induction settling as [|[i q] rest IH]; intros values Hnd Hin Hlt.
  - by apply elem_of_nil in Hin.
  - rewrite fmap_cons in Hnd. apply NoDup_cons in Hnd as [Hi Hnd].
    rewrite filled_cons. apply elem_of_cons in Hin as [[= <- <-]|Hin].
    + rewrite filled_lookup_other by done.
      by apply list_lookup_insert_eq.
    + apply IH; [done|done|]. by rewrite length_insert.
Qed.

Lemma imap_pair_indices {A : Type} (l : list A) (k : nat) :
  (imap (fun i x => (k + i, x)) l).*1 = seq k (length l).
Proof.
  revert k. induction l as [|x l IH]; intros k; [done|].
  rewrite imap_cons, fmap_cons. cbn [length seq fst]. f_equal; [lia|].
  rewrite <- IH. f_equal. apply imap_ext. intros i y _. cbn. f_equal. lia.
Qed.

Lemma filled_settle_order (ps : list pending) :
  filled (settle_order ps) (replicate (length ps) None) = outcome <$> ps.
Proof.
  assert (Hperm : settle_order ps ≡ₚ imap pair ps)
    by apply merge_sort_Permutation.
  assert (Hfst : (imap pair ps).*1 = seq 0 (length ps))
    by apply (imap_pair_indices ps 0).
  assert (Hnd : NoDup (settle_order ps).*1).
  { rewrite Hperm, Hfst. apply NoDup_seq. }
  apply list_eq. intros j. rewrite list_lookup_fmap.
  destruct (ps !! j) as [p|] eqn:Hj; cbn.
  - apply filled_lookup; [done| |].
    + rewrite Hperm. by apply (elem_of_lookup_imap_2 pair).
    + rewrite length_replicate. by eapply lookup_lt_Some.
  - apply lookup_ge_None. rewrite length_filled, length_replicate.
    by apply lookup_ge_None.
Qed.

(** Unfolding equations of the monad and of the primitive operations. *)

Lemma run_bind {A B : Type} (m : M A) (k : A -> M B) (e : env) (w : world) :
  (m ≫= k) e w
  = match m e w with
    | (inl err, w') => (inl err, w')
    | (inr x, w') => k x e w'
    end.
Proof. done. Qed.

Lemma run_ret {A : Type} (x : A) (e : env) (w : world) :
  (mret x : M A) e w = (inr x, w).
Proof. done. Qed.

Lemma run_scrape_start (url : string) (e : env) (w : world) :
  scrape_start url e w
  = (inr (mkPending (latency e (requests w) url) (net e (requests w) url)),
     mkWorld (trace w ++ [Log (OutScraping url); Fetch url]) (S (requests w))).
Proof.
  unfold scrape_start, console_log, emit, issue. rewrite run_bind. cbn.
  by rewrite <- app_assoc.
Qed.

Lemma run_scrape_resume (p : pending) (e : env) (w : world) :
  scrape_resume p e w
  = match outcome p with
    | Some html => (inr html, mkWorld (trace w ++ [Sleep 2000]) (requests w))
    | None => (inl RetrievalError,
               mkWorld (trace w ++ [Raise RetrievalError]) (requests w))
    end.
Proof.
  unfold scrape_resume, await, or_raise, sleep, emit, raise.
  rewrite run_bind. by destruct (outcome p).
Qed.

Section Deterministic.
(** Every request for a URL is answered, and always with the same body. *)
Context (e : env) (body : string -> string).
Hypothesis net_answers : forall k url, net e k url = Some (body url).

Lemma start_all_answers (urls : list string) (w : world) :
  exists ps w',
    start_all urls e w = (inr ps, w')
    /\ outcome <$> ps = (fun url => Some (body url)) <$> urls.
Proof.
  revert w. induction urls as [|url rest IH]; intros w.
  - by exists [], w.
  - cbn [start_all]. rewrite run_bind, run_scrape_start, run_bind.
    edestruct IH as (ps & w' & -> & Hps).
    eexists _, _. split; [done|]. cbn. by rewrite Hps, net_answers.
Qed.

Lemma collect_answers settling values (w : world) :
  (forall i p, (i, p) ∈ settling -> is_Some (outcome p)) ->
  exists w', collect settling values e w = (inr (filled settling values), w').
Proof.
  revert values w.
  induction settling as [|[i p] rest IH]; intros values w Hall.
  - by exists w.
  - destruct (Hall i p) as [html Hp]; [apply list_elem_of_here|].
    cbn [collect]. rewrite run_bind, run_scrape_resume, Hp, filled_cons, Hp.
    apply IH. intros j q Hq. by eapply Hall, list_elem_of_further.
Qed.

Lemma webpagesSimultaneous_answers (urls : list string) (w : world) :
  exists w', webpagesSimultaneous urls e w = (inr (body <$> urls), w').
Proof.
  unfold webpagesSimultaneous. rewrite run_bind.
  destruct (start_all_answers urls w) as (ps & w1 & -> & Hps).
  unfold Promise_all. rewrite run_bind.
  destruct (collect_answers (settle_order ps) (replicate (length ps) None) w1)
    as (w2 & ->).
  { intros i p Hin.
    assert (Hp : ps !! i = Some p).
    { unfold settle_order in Hin. rewrite merge_sort_Permutation in Hin.
      by apply elem_of_lookup_imap in Hin as (i' & p' & [= -> ->] & Hp). }
    assert (Ho : (outcome <$> ps) !! i = Some (outcome p))
      by (by rewrite list_lookup_fmap, Hp).
    rewrite Hps, list_lookup_fmap in Ho.
    destruct (urls !! i); [|done]. injection Ho as <-. by eexists. }
  exists w2. rewrite run_ret, filled_settle_order, Hps. do 2 f_equal.
  clear. induction urls as [|url rest IH]; [done|]. cbn. by rewrite IH.
Qed.

Lemma reduce_sequential_answers (urls pages : list string)
    (promise : M (list string)) (w : world) :
  (forall w0, exists w', promise e w0 = (inr pages, w')) ->
  exists w',
    reduce
      (fun (promise : M (list string)) url =>
         pages ← promise;
         p ← scrape_start url;
         html ← scrape_resume p;
         mret (pages ++ [html]))
      promise urls e w
    = (inr (pages ++ (body <$> urls)), w').
Proof.
  unfold reduce. revert w pages promise.
  induction urls as [|url rest IH]; intros w pages promise Hpromise.
  - cbn. rewrite app_nil_r. apply Hpromise.
  - cbn [fold_left fmap list_fmap].
    replace (pages ++ body url :: (body <$> rest))
      with ((pages ++ [body url]) ++ (body <$> rest))
      by (by rewrite <- app_assoc).
    apply IH. intros w0. destruct (Hpromise w0) as (w1 & Hw1).
    rewrite run_bind, Hw1, run_bind, run_scrape_start, run_bind,
      run_scrape_resume.
    cbn [outcome]. rewrite net_answers, run_ret. by eexists.
Qed.

Lemma webpagesSequential_answers (urls : list string) (w : world) :
  exists w', webpagesSequential urls e w = (inr (body <$> urls), w').
Proof.
  apply (reduce_sequential_answers urls []). intros w0. by exists w0.
Qed.

End Deterministic.

(** C2. When every request for a URL is answered with the same body, the
    concurrent retrieval and the sequential retrieval of a list of URLs both
    return the bodies of the URLs in the order of the list, whatever the
    latencies of the requests and whatever was done before: the two modes
    return the same sequence. *)
Theorem batch_modes_return_same_pages (e : env) (body : string -> string)
    (urls : list string) (w1 w2 : world) :
  (forall k url, net e k url = Some (body url)) ->
  (webpagesSimultaneous urls e w1).1 = inr (map body urls)
  /\ (webpagesSequential urls e w2).1 = inr (map body urls)
  /\ (webpagesSimultaneous urls e w1).1 = (webpagesSequential urls e w2).1.
Proof.
  intros Hnet.
  destruct (webpagesSimultaneous_answers e body Hnet urls w1) as (w1' & ->).
  destruct (webpagesSequential_answers e body Hnet urls w2) as (w2' & ->).
  done.
Qed.

(** In the example world, where later requests settle sooner, both modes
    return the three pages in the order of [URLS]. *)
Lemma batch_modes_return_same_pages_witness :
  (forall k url, net example_env k url = Some (example_body url))
  /\ (webpagesSimultaneous URLS example_env (mkWorld [] 0)).1
     = (webpagesSequential URLS example_env (mkWorld [] 0)).1.
Proof.
  split; [intros k url; reflexivity|].
  apply (batch_modes_return_same_pages example_env example_body URLS).
  intros k url. reflexivity.
Defined.

(** ** Failures *)

Lemma no_raise_nil : no_raise [].
Proof. intros err. apply not_elem_of_nil. Qed.

Lemma no_raise_app (evs1 evs2 : list event) :
  no_raise evs1 -> no_raise evs2 -> no_raise (evs1 ++ evs2).
Proof.
  intros H1 H2 err. rewrite elem_of_app. intros [?|?]; [by eapply H1|by eapply H2].
Qed.

Lemma propagates_ret {A : Type} (x : A) : propagates (mret x).
Proof.
  intros e w. rewrite run_ret. exists []. split; [by rewrite app_nil_r|].
  apply no_raise_nil.
Qed.

Lemma propagates_bind {A B : Type} (m : M A) (k : A -> M B) :
  propagates m -> (forall x, propagates (k x)) -> propagates (m ≫= k).
Proof.
  intros Hm Hk e w. rewrite run_bind. specialize (Hm e w).
  destruct (m e w) as [[err|x] w1]; [done|].
  destruct Hm as (evs1 & Htr1 & Hno1). specialize (Hk x e w1).
  destruct (k x e w1) as [[err|y] w2].
  - destruct Hk as (evs2 & Htr2 & Hno2). exists (evs1 ++ evs2).
    split; [|by apply no_raise_app].
    by rewrite Htr2, Htr1, <- !app_assoc.
  - destruct Hk as (evs2 & Htr2 & Hno2). exists (evs1 ++ evs2).
    split; [|by apply no_raise_app].
    by rewrite Htr2, Htr1, <- !app_assoc.
Qed.

Lemma propagates_emit (ev : event) :
  (forall err, ev <> Raise err) -> propagates (emit ev).
Proof.
  intros Hev e w. exists [ev]. split; [done|].
  intros err Hin%list_elem_of_singleton. by eapply Hev.
Qed.

Lemma propagates_raise {A : Type} (err : error) : propagates (@raise A err).
Proof.
  intros e w. exists []. split; [done|]. apply no_raise_nil.
Qed.

Lemma propagates_or_raise {A : Type} (err : error) (answer : option A) :
  propagates (or_raise err answer).
Proof.
  destruct answer; [apply propagates_ret|apply propagates_raise].
Qed.

Lemma propagates_issue (url : string) : propagates (issue url).
Proof.
  intros e w. exists [Fetch url]. split; [done|].
  by intros err Hin%list_elem_of_singleton.
Qed.

Lemma propagates_console_log (o : output) : propagates (console_log o).
Proof. by apply propagates_emit. Qed.

Lemma propagates_sleep (time : nat) : propagates (sleep time).
Proof. by apply propagates_emit. Qed.

Lemma propagates_parse (text : string) : propagates (parse text).
Proof. intros e w. apply (propagates_or_raise DecodeError). Qed.

Lemma propagates_readFileSync (path : string) : propagates (readFileSync path).
Proof.
  intros e w.
  apply (propagates_bind (emit (ReadFile path))
           (fun _ => or_raise FileAccessError (disk e path))).
  - by apply propagates_emit.
  - intros _. apply propagates_or_raise.
Qed.

Create HintDb propagates.
#[local] Hint Resolve propagates_ret propagates_raise propagates_or_raise
  propagates_issue propagates_console_log propagates_sleep propagates_parse
  propagates_readFileSync : propagates.

Ltac propagates_step :=
  first [ apply propagates_bind; [|intros ?] | solve [eauto with propagates] ].

Lemma propagates_fetch_text (url : string) : propagates (fetch_text url).
Proof. unfold fetch_text, await. repeat propagates_step. Qed.

Lemma propagates_fetch_json (url : string) : propagates (fetch_json url).
Proof.
  unfold fetch_json. apply propagates_bind; [apply propagates_fetch_text|].
  intros body. apply propagates_parse.
Qed.

Lemma propagates_scrape_start (url : string) : propagates (scrape_start url).
Proof. unfold scrape_start. repeat propagates_step. Qed.

Lemma propagates_scrape_resume (p : pending) : propagates (scrape_resume p).
Proof. unfold scrape_resume, await. repeat propagates_step. Qed.

#[local] Hint Resolve propagates_fetch_json propagates_scrape_start
  propagates_scrape_resume : propagates.

Lemma propagates_start_all (urls : list string) : propagates (start_all urls).
Proof.
  induction urls as [|url rest IH]; cbn [start_all]; repeat propagates_step.
Qed.

Lemma propagates_collect settling values : propagates (collect settling values).
Proof.
  revert values. induction settling as [|[i p] rest IH]; intros values;
    cbn [collect]; repeat propagates_step.
Qed.

Lemma propagates_webpagesSimultaneous (urls : list string) :
  propagates (webpagesSimultaneous urls).
Proof.
  unfold webpagesSimultaneous, Promise_all.
  apply propagates_bind; [apply propagates_start_all|]. intros ps.
  apply propagates_bind; [apply propagates_collect|]. intros values.
  apply propagates_ret.
Qed.

Lemma propagates_webpagesSequential (urls : list string) :
  propagates (webpagesSequential urls).
Proof.
  unfold webpagesSequential, reduce.
  assert (Hstart : propagates (mret [] : M (list string)))
    by apply propagates_ret.
  revert Hstart. generalize (mret [] : M (list string)) as promise.
  induction urls as [|url rest IH]; intros promise Hpromise; [done|].
  cbn [fold_left]. apply IH. repeat propagates_step.
Qed.

Lemma propagates_main : propagates main.
Proof.
  unfold main.
  apply propagates_bind; [apply propagates_fetch_json|]. intros data2022.
  do 8 (apply propagates_bind; [apply propagates_console_log|]; intros _).
  apply propagates_bind; [apply propagates_webpagesSimultaneous|]. intros s1.
  apply propagates_bind; [apply propagates_console_log|]. intros _.
  apply propagates_bind; [apply propagates_webpagesSequential|]. intros s2.
  apply propagates_bind; [apply propagates_console_log|]. intros _.
  apply propagates_bind; [apply propagates_readFileSync|]. intros text.
  apply propagates_bind; [apply propagates_parse|]. intros data2017.
  apply propagates_console_log.
Qed.

(** *** When the script completes *)

Lemma run_start_all (urls : list string) (e : env) (w : world) :
  exists w',
    start_all urls e w = (inr (in_flight e (requests w) urls), w')
    /\ requests w' = requests w + length urls.
Proof.
  revert w. induction urls as [|url rest IH]; intros w.
  - exists w. split; [done|]. cbn. lia.
  - cbn [start_all]. rewrite run_bind, run_scrape_start, run_bind.
    edestruct IH as (w' & -> & Hreq). eexists. split.
    + rewrite run_ret. do 2 f_equal. unfold in_flight.
      rewrite imap_cons. cbn [requests]. rewrite Nat.add_0_r. f_equal.
      apply imap_ext. intros i u _. cbn. by rewrite Nat.add_succ_r.
    + rewrite Hreq. cbn. lia.
Qed.

Lemma collect_requests settling values (e : env) (w : world) :
  requests (collect settling values e w).2 = requests w.
Proof.
  revert values w. induction settling as [|[i p] rest IH]; intros values w;
    [done|].
  cbn [collect]. rewrite run_bind, run_scrape_resume.
  destruct (outcome p); [|done]. by rewrite IH.
Qed.

Lemma collect_rejects settling values (e : env) (w : world) :
  (exists i p, (i, p) ∈ settling /\ outcome p = None) ->
  (collect settling values e w).1 = inl RetrievalError.
Proof.
  revert values w. induction settling as [|[i p] rest IH];
    intros values w (j & q & Hin & Hq).
  - by apply elem_of_nil in Hin.
  - cbn [collect]. rewrite run_bind, run_scrape_resume.
    destruct (outcome p) as [html|] eqn:Hp; [|done].
    apply IH. apply elem_of_cons in Hin as [[= -> ->]|Hin]; [congruence|].
    by exists j, q.
Qed.

Lemma elem_of_settle_order (ps : list pending) (i : nat) (p : pending) :
  (i, p) ∈ settle_order ps <-> ps !! i = Some p.
Proof.
  unfold settle_order. rewrite merge_sort_Permutation, elem_of_lookup_imap.
  split.
  - by intros (i' & p' & [= -> ->] & Hp).
  - intros Hp. by exists i, p.
Qed.

Lemma in_flight_lookup (e : env) (k : nat) (urls : list string) (i : nat) :
  in_flight e k urls !! i
  = (fun url => mkPending (latency e (k + i) url) (net e (k + i) url))
      <$> urls !! i.
Proof. unfold in_flight. apply list_lookup_imap. Qed.

Lemma webpagesSimultaneous_completes (urls : list string) (e : env) (w : world) :
  (forall i url, urls !! i = Some url -> is_Some (net e (requests w + i) url)) ->
  exists pages w',
    webpagesSimultaneous urls e w = (inr pages, w')
    /\ requests w' = requests w + length urls.
Proof.
  intros Hall. unfold webpagesSimultaneous. rewrite run_bind.
  destruct (run_start_all urls e w) as (w1 & -> & Hreq1).
  unfold Promise_all. rewrite run_bind.
  pose proof (collect_requests (settle_order (in_flight e (requests w) urls))
    (replicate (length (in_flight e (requests w) urls)) None) e w1) as Hreq2.
  edestruct (collect_answers e) as (w2 & Hcollect); [|rewrite Hcollect in *].
  { intros i p Hin%elem_of_settle_order. rewrite in_flight_lookup in Hin.
    destruct (urls !! i) as [url|] eqn:Hurl; [|done].
    injection Hin as <-. by apply Hall. }
  eexists _, _. split; [by rewrite run_ret|]. cbn in Hreq2. lia.
Qed.

Lemma webpagesSimultaneous_rejects (urls : list string) (e : env) (w : world)
    (i : nat) (url : string) :
  urls !! i = Some url -> net e (requests w + i) url = None ->
  (webpagesSimultaneous urls e w).1 = inl RetrievalError.
Proof.
  intros Hurl Hnone. unfold webpagesSimultaneous. rewrite run_bind.
  destruct (run_start_all urls e w) as (w1 & -> & Hreq1).
  unfold Promise_all. rewrite run_bind.
  match goal with
  | |- context [collect ?s ?v e w1] =>
      pose proof (collect_rejects s v e w1) as Hrej;
      destruct (collect s v e w1) as [[err|values] w2]
  end.
  - cbn in *. f_equal. enough (Herr : @inl error (list (option string)) err
                                      = inl RetrievalError) by congruence.
    apply Hrej. eexists i, _. split.
    + apply elem_of_settle_order. by rewrite in_flight_lookup, Hurl.
    + done.
  - cbn in Hrej. discriminate Hrej. eexists i, _. split.
    + apply elem_of_settle_order. by rewrite in_flight_lookup, Hurl.
    + done.
Qed.

Section Sequential.
Context (e : env).

Let callback (promise : M (list string)) (url : string) : M (list string) :=
  pages ← promise;
  p ← scrape_start url;
  html ← scrape_resume p;
  mret (pages ++ [html]).

Lemma reduce_callback_rejected (urls : list string) (promise : M (list string))
    (w w1 : world) (err : error) :
  promise e w = (inl err, w1) ->
  reduce callback promise urls e w = (inl err, w1).
Proof.
  unfold reduce. revert promise.
  induction urls as [|url rest IH]; intros promise Hpromise; [done|].
  cbn [fold_left]. apply IH. unfold callback. by rewrite run_bind, Hpromise.
Qed.

Lemma reduce_callback_completes (urls pages : list string)
    (promise : M (list string)) (w w1 : world) :
  promise e w = (inr pages, w1) ->
  (forall i url, urls !! i = Some url -> is_Some (net e (requests w1 + i) url)) ->
  exists pages' w',
    reduce callback promise urls e w = (inr pages', w')
    /\ requests w' = requests w1 + length urls.
Proof.
  unfold reduce. revert promise pages w1.
  induction urls as [|url rest IH]; intros promise pages w1 Hpromise Hall.
  - exists pages, w1. split; [done|]. cbn. lia.
  - cbn [fold_left]. destruct (Hall 0 url) as [html Hhtml]; [done|].
    rewrite Nat.add_0_r in Hhtml.
    edestruct (IH (callback promise url)) as (pages' & w' & Hrun & Hreq).
    + unfold callback.
      rewrite run_bind, Hpromise, run_bind, run_scrape_start, run_bind,
        run_scrape_resume.
      cbn [outcome]. rewrite Hhtml. by rewrite run_ret.
    + intros i u Hu. cbn [requests]. specialize (Hall (S i) u Hu).
      by rewrite Nat.add_succ_r in Hall.
    + exists pages', w'. split; [done|]. rewrite Hreq. cbn. lia.
Qed.

Lemma reduce_callback_rejects (urls pages : list string)
    (promise : M (list string)) (w w1 : world) (i : nat) (url : string) :
  promise e w = (inr pages, w1) ->
  urls !! i = Some url -> net e (requests w1 + i) url = None ->
  (forall j u, j < i -> urls !! j = Some u ->
               is_Some (net e (requests w1 + j) u)) ->
  (reduce callback promise urls e w).1 = inl RetrievalError.
Proof.
  unfold reduce. revert promise pages w1 i.
  induction urls as [|u0 rest IH];
    intros promise pages w1 i Hpromise Hurl Hnone Hbefore; [done|].
  cbn [fold_left]. destruct i as [|i].
  - injection Hurl as ->. rewrite Nat.add_0_r in Hnone.
    pose proof (reduce_callback_rejected rest (callback promise url) w)
      as Hrej.
    unfold reduce in Hrej. erewrite Hrej; [done|].
    unfold callback.
    rewrite run_bind, Hpromise, run_bind, run_scrape_start, run_bind,
      run_scrape_resume.
    cbn [outcome]. by rewrite Hnone.
  - destruct (Hbefore 0 u0) as [html Hhtml]; [lia|done|].
    rewrite Nat.add_0_r in Hhtml.
    eapply (IH _ _ _ i); [|exact Hurl| |].
    + unfold callback.
      rewrite run_bind, Hpromise, run_bind, run_scrape_start, run_bind,
        run_scrape_resume.
      cbn [outcome]. rewrite Hhtml. by rewrite run_ret.
    + cbn [requests]. by rewrite Nat.add_succ_l, <- Nat.add_succ_r.
    + intros j u Hj Hu. cbn [requests].
      rewrite Nat.add_succ_l, <- Nat.add_succ_r. apply Hbefore; [lia|done].
Qed.

End Sequential.

Lemma run_fst {A : Type} (m : M A) (e : env) :
  (run m e).1 = (m e (mkWorld [] 0)).1.
Proof. unfold run. by destruct (m e _). Qed.

Lemma bind_inl {A B : Type} (m : M A) (k : A -> M B) (e : env) (w : world)
    (err : error) :
  (m e w).1 = inl err -> ((m ≫= k) e w).1 = inl err.
Proof.
  intros Hm. rewrite run_bind.
  destruct (m e w) as [[err'|x] w']; cbn in *; congruence.
Qed.

Lemma bind_inr {A B : Type} (m : M A) (k : A -> M B) (e : env) (w w' : world)
    (x : A) :
  m e w = (inr x, w') -> (m ≫= k) e w = k x e w'.
Proof. intros Hm. by rewrite run_bind, Hm. Qed.

Lemma run_console_log (o : output) (e : env) (w : world) :
  console_log o e w = (inr tt, mkWorld (trace w ++ [Log o]) (requests w)).
Proof. done. Qed.

Lemma run_fetch_json (url : string) (e : env) (w : world) :
  fetch_json url e w
  = match net e (requests w) url with
    | None => (inl RetrievalError,
               mkWorld (trace w ++ [Fetch url; Raise RetrievalError])
                       (S (requests w)))
    | Some body =>
        match JSON_parse e body with
        | None => (inl DecodeError,
                   mkWorld (trace w ++ [Fetch url; Raise DecodeError])
                           (S (requests w)))
        | Some data => (inr data,
                        mkWorld (trace w ++ [Fetch url]) (S (requests w)))
        end
    end.
Proof.
  unfold fetch_json, fetch_text, await, parse, or_raise, issue, raise.
  rewrite !run_bind. cbn.
  destruct (net e (requests w) url) as [body|]; cbn.
  - destruct (JSON_parse e body); cbn; [done|]. by rewrite <- app_assoc.
  - by rewrite <- app_assoc.
Qed.

Lemma run_read_and_parse (path : string) (k : list EndorsementRecord -> M unit)
    (e : env) (w : world) :
  ((text ← readFileSync path; data ← parse text; k data) e w).1
  = match disk e path with
    | None => inl FileAccessError
    | Some text =>
        match JSON_parse e text with
        | None => inl DecodeError
        | Some data =>
            (k data e (mkWorld (trace w ++ [ReadFile path]) (requests w))).1
        end
    end.
Proof.
  unfold readFileSync, parse, or_raise, emit, raise. rewrite !run_bind. cbn.
  destruct (disk e path) as [text|]; cbn; [|done].
  rewrite run_bind. by destruct (JSON_parse e text).
Qed.

Lemma request_url_batch (k : nat) (i : nat) (url : string) :
  k = 1 \/ k = 4 -> URLS !! i = Some url -> request_url (k + i) = url.
Proof.
  intros Hk Hurl.
  assert (Hi : i < 3) by (by apply lookup_lt_Some in Hurl).
  destruct Hk as [-> | ->];
    destruct i as [|[|[|i]]]; try lia; by injection Hurl as <-.
Qed.

Lemma URLS_answered_or_not (e : env) (k : nat) :
  (forall i url, URLS !! i = Some url -> is_Some (net e (k + i) url))
  \/ exists i url,
       URLS !! i = Some url /\ net e (k + i) url = None
       /\ forall j u, j < i -> URLS !! j = Some u -> is_Some (net e (k + j) u).
Proof.
  destruct (net e (k + 0) "https://example.com") eqn:H0; cycle 1.
  { right. eexists 0, _. split_and!; [done|done|]. intros; lia. }
  destruct (net e (k + 1) "https://tomfevrier.io") eqn:H1; cycle 1.
  { right. eexists 1, _. split_and!; [done|done|].
    intros [|j] u Hj Hu; [|lia]. injection Hu as <-. by rewrite H0. }
  destruct (net e (k + 2) "https://lesechos.fr") eqn:H2; cycle 1.
  { right. eexists 2, _. split_and!; [done|done|].
    intros [|[|j]] u Hj Hu; [| |lia]; injection Hu as <-;
      [by rewrite H0|by rewrite H1]. }
  left. intros [|[|[|i]]] url Hurl; [| | |done]; injection Hurl as <-;
    [by rewrite H0|by rewrite H1|by rewrite H2].
Qed.

(** The script runs to its end exactly when every request, the file read and
    both parses succeed. *)
Lemma main_completes_iff (e : env) :
  (run main e).1 = inr tt <-> everything_answers e.
Proof.
  rewrite run_fst. unfold main, everything_answers.
  rewrite run_bind, run_fetch_json. cbn [requests].
  destruct (net e 0 URL_2022) as [body|] eqn:Hnet0; cycle 1.
  { split; [done|]. intros (Hnet & _). destruct (Hnet 0) as [b Hb]; [lia|].
    cbn in Hb. congruence. }
  destruct (JSON_parse e body) as [data2022|] eqn:Hparse0; cycle 1.
  { split; [done|]. intros (_ & Hjson & _).
    destruct (Hjson body eq_refl) as [d Hd]. congruence. }
  do 8 (rewrite run_bind, run_console_log). rewrite run_bind.
  match goal with
  | |- context [webpagesSimultaneous URLS e ?w] => set (w1 := w)
  end.
  assert (Hreq1 : requests w1 = 1) by done.
  destruct (URLS_answered_or_not e (requests w1))
    as [Hall1|(i & url & Hurl & Hnone & _)]; cycle 1.
  { rewrite (surjective_pairing (webpagesSimultaneous URLS e w1)).
    rewrite (webpagesSimultaneous_rejects URLS e w1 i url Hurl Hnone).
    split; [done|]. intros (Hnet & _). exfalso.
    assert (Hsome : is_Some (net e (requests w1 + i) url)).
    { rewrite Hreq1. specialize (Hnet (1 + i)).
      rewrite (request_url_batch 1 i url) in Hnet by auto.
      apply Hnet. apply lookup_lt_Some in Hurl. cbn in Hurl. lia. }
    rewrite Hnone in Hsome. by destruct Hsome. }
  destruct (webpagesSimultaneous_completes URLS e w1 Hall1)
    as (pages1 & w2 & -> & Hreq2).
  rewrite run_bind, run_console_log, run_bind.
  match goal with
  | |- context [webpagesSequential URLS e ?w] => set (w3 := w)
  end.
  assert (Hreq3 : requests w3 = 4) by (subst w3; cbn; rewrite Hreq2, Hreq1; done).
  unfold webpagesSequential.
  destruct (URLS_answered_or_not e (requests w3))
    as [Hall2|(i & url & Hurl & Hnone & Hbefore)]; cycle 1.
  { match goal with
    | |- context [reduce ?f ?p URLS e w3] =>
        rewrite (surjective_pairing (reduce f p URLS e w3));
        rewrite (reduce_callback_rejects e URLS [] p w3 w3 i url
                   eq_refl Hurl Hnone Hbefore)
    end.
    split; [done|]. intros (Hnet & _). exfalso.
    assert (Hsome : is_Some (net e (requests w3 + i) url)).
    { rewrite Hreq3. specialize (Hnet (4 + i)).
      rewrite (request_url_batch 4 i url) in Hnet by auto.
      apply Hnet. apply lookup_lt_Some in Hurl. cbn in Hurl. lia. }
    rewrite Hnone in Hsome. by destruct Hsome. }
  edestruct (reduce_callback_completes e URLS [] (mret []) w3 w3)
    as (pages2 & w4 & -> & Hreq4); [done|exact Hall2|].
  rewrite run_bind, run_console_log.
  rewrite run_read_and_parse.
  destruct (disk e "data-2017.json") as [text|] eqn:Hdisk; cycle 1.
  { split; [done|]. intros (_ & _ & text & Htext & _). congruence. }
  destruct (JSON_parse e text) as [data2017|] eqn:Hparse1; cycle 1.
  { split; [done|]. intros (_ & _ & text' & Htext & Hsome).
    assert (text' = text) as -> by congruence.
    rewrite Hparse1 in Hsome. by destruct Hsome. }
  split; [intros _|done]. split_and!.
  - intros k Hk.
    destruct k as [|k]; [by cbn [request_url]; rewrite Hnet0|].
    destruct (decide (k < 3)) as [Hlt|Hge].
    + destruct (URLS !! k) as [url|] eqn:Hurl;
        [|apply lookup_ge_None in Hurl; cbn in Hurl; lia].
      specialize (Hall1 k url Hurl). rewrite Hreq1 in Hall1.
      change (S k) with (1 + k).
      by rewrite (request_url_batch 1 k url) by auto.
    + destruct (URLS !! (k - 3)) as [url|] eqn:Hurl;
        [|apply lookup_ge_None in Hurl; cbn in Hurl; lia].
      specialize (Hall2 (k - 3) url Hurl). rewrite Hreq3 in Hall2.
      replace (S k) with (4 + (k - 3)) by lia.
      by rewrite (request_url_batch 4 (k - 3) url) by auto.
  - intros body' [= <-]. by rewrite Hparse0.
  - exists text. by rewrite Hparse1.
Qed.

(** C8. Nothing in the script catches a failure: whatever the outside world
    does, a run that fails returns the error of the first operation that
    raised, and that raise is the last thing the run did; a run that
    completes met no raise at all; and the run completes exactly when every
    request, the file read and both JSON parses succeed, so that no failure
    of a remote fetch, of the local read or of the parsing is recovered. *)
Theorem failures_reach_top_level (e : env) :
  (match run main e with
   | (inl err, tr) => exists evs, tr = evs ++ [Raise err] /\ no_raise evs
   | (inr _, tr) => no_raise tr
   end)
  /\ ((run main e).1 = inr tt <-> everything_answers e).
Proof.
  split; [|apply main_completes_iff].
  pose proof (propagates_main e (mkWorld [] 0)) as Hmain. unfold run.
  destruct (main e (mkWorld [] 0)) as [[err|x] w].
  - destruct Hmain as (evs & Htr & Hno). by exists evs.
  - destruct Hmain as (evs & Htr & Hno). cbn in Htr. by rewrite Htr.
Qed.

(** ** Worked examples *)

Example distinctCandidates_keeps_first_occurrences :
  distinctCandidates (example2022 ++ example2017 ++ example2022)
  = ["zemmour"; "fillon"].
Proof. reflexivity. Qed.

Example countByMandateSubstring_example :
  countByMandateSubstring example2022 "Maire" = 1.
Proof. reflexivity. Qed.

Example reduce_as_sum_array :
  reduce_as_sum (map double_of_Z array) = double_of_Z 36.
Proof. reflexivity. Qed.

Example main_completes_in_example_env : (run main example_env).1 = inr tt.
Proof. by vm_compute. Qed.

Example main_without_file :
  (run main (mkEnv (net example_env) (latency example_env) (fun _ => None)
                   (JSON_parse example_env))).1
  = inl FileAccessError.
Proof. by vm_compute. Qed.

Example main_without_network :
  run main (mkEnv (fun _ _ => None) (latency example_env) (disk example_env)
                  (JSON_parse example_env))
  = (inl RetrievalError, [Fetch URL_2022; Raise RetrievalError]).
Proof. by vm_compute. Qed.

Example main_with_malformed_data :
  run main (mkEnv (net example_env) (latency example_env) (disk example_env)
                  (fun _ => None))
  = (inl DecodeError, [Fetch URL_2022; Raise DecodeError]).
Proof. by vm_compute. Qed.

(** * Further properties *)

(** ** The join on plain keys *)

(** X1. When no prior-year candidate is named like a property that every
    object inherits, the entry of the join for a key is the number of
    records of the chosen candidate whose official endorsed that key in the
    prior year (first matching record), and the key has no entry when that
    number is zero. *)
Theorem crossYearJoin_counts_prior_endorsements (cand : string)
    (data2022 data2017 : list EndorsementRecord) (key : string) :
  (forall e, e ∈ data2017 -> plain_key (candidate e)) ->
  crossYearJoin cand data2022 data2017 !! key
  = match how_many (fun d => candidate d = cand
                             /\ previous_candidate data2017 d = Some key)
                   data2022 with
    | 0 => None
    | S n => Some (VNumber (S n))
    end.
Proof.
  intros Hplain.
  rewrite crossYearJoin_plain, lookup_fmap, tally_of_lookup by done.
  by destruct (how_many _ data2022).
Qed.

Lemma example2017_plain :
  forall e, e ∈ example2017 -> plain_key (candidate e).
Proof.
  intros e He. apply list_elem_of_singleton in He. subst e. reflexivity.
Defined.

(** In the example, the entry for "fillon" is 1. *)
Lemma crossYearJoin_counts_prior_endorsements_witness :
  (forall e, e ∈ example2017 -> plain_key (candidate e))
  /\ crossYearJoin "zemmour" example2022 example2017 !! "fillon"
     = Some (VNumber 1).
Proof.
  split; [exact example2017_plain|].
  exact (crossYearJoin_counts_prior_endorsements
           "zemmour" example2022 example2017 "fillon" example2017_plain).
Defined.

(** In the example, the only entry is the integer 1 and one selected record
    has a prior-year match. *)
Lemma crossYearJoin_plain_invariant_witness :
  (forall e, e ∈ example2017 -> plain_key (candidate e))
  /\ exists t : gmap string nat,
       crossYearJoin "zemmour" example2022 example2017 = VNumber <$> t
       /\ tally_total t
          = how_many (fun d => candidate d = "zemmour"
                               /\ is_Some (previous_candidate example2017 d))
              example2022.
Proof.
  split; [exact example2017_plain|].
  exact (proj2 (crossYearJoin_plain_invariant
                  "zemmour" example2022 example2017 example2017_plain)).
Defined.

(** ** The lookup of the join *)

Lemma find_Some_first {A : Type} (f : A -> bool) (l : list A) (x : A) :
  find f l = Some x
  <-> exists i, l !! i = Some x /\ f x = true
                /\ forall j y, j < i -> l !! j = Some y -> f y = false.
Proof.
  unfold find. induction l as [|a l IH]; cbn.
  - split; [done|]. intros (i & Hi & _). by destruct i.
  - destruct (f a) eqn:Hfa.
    + split.
      * intros [= <-]. exists 0. split_and!; [done|done|]. intros; lia.
      * intros (i & Hi & Hfx & Hfirst). destruct i as [|i]; [done|].
        specialize (Hfirst 0 a). rewrite Hfa in Hfirst.
        discriminate Hfirst; [lia|done].
    + rewrite IH. split.
      * intros (i & Hi & Hfx & Hfirst). exists (S i). split_and!; [done|done|].
        intros [|j] y Hj Hy; [by injection Hy as <-|].
        apply (Hfirst j); [lia|done].
      * intros (i & Hi & Hfx & Hfirst). destruct i as [|i].
        { injection Hi as ->. congruence. }
        exists i. split_and!; [done|done|].
        intros j y Hj Hy. apply (Hfirst (S j)); [lia|done].
Qed.

(** X3. The lookup of line 168 returns a prior-year record exactly when it
    is the first one, in the order of the collection, with the name and the
    constituency of the current record (a later duplicate is never used),
    and returns [undefined] exactly when no prior-year record has both. *)
Theorem find_sponsor2017_first_match (data2017 : list EndorsementRecord)
    (d : EndorsementRecord) :
  (forall e,
      find (fun e => String.eqb (name e) (name d)
                     && String.eqb (constituency e) (constituency d)) data2017
      = Some e
      <-> first_match data2017 d e)
  /\ (find (fun e => String.eqb (name e) (name d)
                     && String.eqb (constituency e) (constituency d)) data2017
      = None
      <-> forall e, e ∈ data2017 ->
                    ~ (name e = name d /\ constituency e = constituency d)).
Proof.
  split.
  - intros e. rewrite find_Some_first. unfold first_match.
    split.
    + intros (i & Hi & Htest & Hfirst). exists i.
      apply andb_true_iff in Htest as [Hn%String.eqb_eq Hc%String.eqb_eq].
      split_and!; [done..|]. intros j e' Hj He' [Hn' Hc'].
      specialize (Hfirst j e' Hj He').
      apply andb_false_iff in Hfirst as [Hf|Hf];
        apply String.eqb_neq in Hf; done.
    + intros (i & Hi & Hn & Hc & Hfirst). exists i. split_and!; [done| |].
      * apply andb_true_iff. by rewrite !String.eqb_eq.
      * intros j e' Hj He'. specialize (Hfirst j e' Hj He').
        apply not_true_is_false. intros Htest.
        apply andb_true_iff in Htest as [Hn'%String.eqb_eq Hc'%String.eqb_eq].
        tauto.
  - rewrite <- previous_candidate_None. unfold previous_candidate.
    by rewrite fmap_None.
Qed.

(** ** The join and the order of the records *)

Lemma crossYearJoin_join_step (cand : string)
    (data2022 data2017 : list EndorsementRecord) (acc : gmap string value) :
  reduce (tally_step data2017) acc
    (List.filter (fun d => String.eqb (candidate d) cand) data2022)
  = foldl (join_step cand data2017) acc data2022.
Proof.
  unfold reduce. revert acc.
  induction data2022 as [|d ds IH]; intros acc; [done|].
  cbn [List.filter foldl]. unfold join_step at 2.
  destruct (String.eqb (candidate d) cand); cbn [fold_left]; apply IH.
Qed.

Lemma get_set_other (acc : gmap string value) (k k' : string) (v : value) :
  k <> k' -> get (set acc k v) k' = get acc k'.
Proof.
  intros Hne. unfold get, set.
  destruct (String.eqb k "__proto__"); [done|].
  by rewrite lookup_insert_ne.
Qed.

Lemma set_set_other (acc : gmap string value) (k k' : string) (v v' : value) :
  k <> k' -> set (set acc k v) k' v' = set (set acc k' v') k v.
Proof.
  intros Hne. unfold set.
  destruct (String.eqb k "__proto__"), (String.eqb k' "__proto__"); try done.
  by apply insert_insert_ne.
Qed.

Lemma tally_step_comm (data2017 : list EndorsementRecord)
    (acc : gmap string value) (d d' : EndorsementRecord) :
  tally_step data2017 (tally_step data2017 acc d) d'
  = tally_step data2017 (tally_step data2017 acc d') d.
Proof.
  unfold tally_step.
  destruct (find _ data2017) as [e|], (find _ data2017) as [e'|]; try done.
  destruct (decide (candidate e = candidate e')) as [Heq|Hne].
  - by rewrite Heq.
  - rewrite !get_set_other by done. by apply set_set_other.
Qed.

Lemma join_step_comm (cand : string) (data2017 : list EndorsementRecord)
    (acc : gmap string value) (d d' : EndorsementRecord) :
  join_step cand data2017 (join_step cand data2017 acc d) d'
  = join_step cand data2017 (join_step cand data2017 acc d') d.
Proof.
  unfold join_step.
  destruct (String.eqb (candidate d) cand), (String.eqb (candidate d') cand);
    try done.
  apply tally_step_comm.
Qed.

(** X4. The entries of the tally do not depend on the order of the
    current-year records: for two collections with the same records in a
    different order, every key has the same own entry, and a read of any key
    returns the same value, inherited keys included.  (The order in which
    the keys of the object are listed is not part of this statement.) *)
Theorem crossYearJoin_order_irrelevant (cand : string)
    (data2022 data2022' data2017 : list EndorsementRecord) :
  data2022 ≡ₚ data2022' ->
  forall key,
    crossYearJoin cand data2022 data2017 !! key
    = crossYearJoin cand data2022' data2017 !! key
    /\ get (crossYearJoin cand data2022 data2017) key
       = get (crossYearJoin cand data2022' data2017) key.
Proof.
  intros Hperm key.
  enough (Heq : crossYearJoin cand data2022 data2017
                = crossYearJoin cand data2022' data2017) by (by rewrite Heq).
  unfold crossYearJoin. rewrite !crossYearJoin_join_step.
  generalize (∅ : gmap string value) as acc.
  induction Hperm as [|d l l' _ IH|d d' l|l l' l'' _ IH1 _ IH2]; intros acc.
  - done.
  - cbn. apply IH.
  - cbn. by rewrite join_step_comm.
  - by rewrite IH1, IH2.
Qed.

(** Two officials who endorsed different candidates before, taken in either
    order: the entry for "macron" is 1 both times. *)
Lemma crossYearJoin_order_irrelevant_witness :
  two_records ≡ₚ reverse two_records
  /\ crossYearJoin "zemmour" two_records two_prior !! "macron"
     = crossYearJoin "zemmour" (reverse two_records) two_prior !! "macron".
Proof.
  assert (Hperm : two_records ≡ₚ reverse two_records)
    by (symmetry; apply reverse_Permutation).
  split; [exact Hperm|].
  exact (proj1 (crossYearJoin_order_irrelevant "zemmour" two_records
                  (reverse two_records) two_prior Hperm "macron")).
Defined.

(** X5. A current-year record that endorses another candidate, or whose
    official has no prior-year record with the same name and constituency,
    can be removed from the collection without changing the tally: it adds
    no entry and raises nothing, wherever it stands. *)
Theorem crossYearJoin_skips_record (cand : string)
    (before after data2017 : list EndorsementRecord) (d : EndorsementRecord) :
  candidate d <> cand
  \/ (forall e, e ∈ data2017 ->
                ~ (name e = name d /\ constituency e = constituency d)) ->
  crossYearJoin cand (before ++ d :: after) data2017
  = crossYearJoin cand (before ++ after) data2017.
Proof.
  intros Hskip. unfold crossYearJoin.
  rewrite !crossYearJoin_join_step, !foldl_app. cbn [foldl]. f_equal.
  unfold join_step. destruct Hskip as [Hother|Hnone].
  - apply String.eqb_neq in Hother. by rewrite Hother.
  - destruct (String.eqb (candidate d) cand); [|done].
    by apply tally_step_unmatched.
Qed.

Lemma crossYearJoin_skips_record_witness :
  (candidate (sponsor "B" "X2" "macron") <> "zemmour"
   \/ (forall e, e ∈ example2017 ->
                 ~ (name e = name (sponsor "B" "X2" "macron")
                    /\ constituency e = constituency (sponsor "B" "X2" "macron"))))
  /\ crossYearJoin "zemmour" (example2022 ++ sponsor "B" "X2" "macron" :: [])
       example2017
     = crossYearJoin "zemmour" (example2022 ++ []) example2017.
Proof.
  assert (Hskip : candidate (sponsor "B" "X2" "macron") <> "zemmour"
                  \/ (forall e, e ∈ example2017 ->
                        ~ (name e = name (sponsor "B" "X2" "macron")
                           /\ constituency e
                              = constituency (sponsor "B" "X2" "macron"))))
    by (left; discriminate).
  split; [exact Hskip|].
  exact (crossYearJoin_skips_record "zemmour" example2022 [] example2017
           (sponsor "B" "X2" "macron") Hskip).
Defined.

(** ** Counting mayors *)

Lemma length_filter_le {A : Type} (f g : A -> bool) (l : list A) :
  (forall x, f x = true -> g x = true) ->
  length (List.filter f l) <= length (List.filter g l).
Proof.
  intros Himp. induction l as [|x l IH]; [done|]. cbn.
  destruct (f x) eqn:Hf.
  - rewrite (Himp x Hf). cbn. lia.
  - destruct (g x); cbn; lia.
Qed.

(** X6. [countByMandateSubstring] is the number of records whose mandate
    contains the substring; it bounds the count with the two further
    conditions on candidate and civility from above and is itself at most
    the number of records. *)
Theorem countByMandateSubstring_counts (data : list EndorsementRecord)
    (cand civ substring : string) :
  count_of (fun d => contains (mandate d) substring) data
    (countByMandateSubstring data substring)
  /\ countByCandidateAndCivilityAndMandate data cand civ substring
     <= countByMandateSubstring data substring
  /\ countByMandateSubstring data substring <= length data.
Proof.
  split_and!.
  - apply count_of_filter. intros d. apply includes_true_iff.
  - apply length_filter_le. intros d Hd.
    by apply andb_true_iff in Hd as [[_ Hm]%andb_true_iff _].
  - unfold countByMandateSubstring.
    induction data as [|d ds IH]; [done|]. cbn.
    destruct (includes (mandate d) substring); cbn; lia.
Qed.

Lemma append_assoc (x y z : string) : (x +:+ y) +:+ z = x +:+ y +:+ z.
Proof.
  induction x as [|c x IH]; [done|].
  change (String c ((x +:+ y) +:+ z) = String c (x +:+ y +:+ z)).
  by rewrite IH.
Qed.

Lemma contains_trans (s sub sub' : string) :
  contains s sub -> contains sub sub' -> contains s sub'.
Proof.
  intros (b1 & a1 & ->) (b2 & a2 & ->).
  exists (b1 +:+ b2), (a2 +:+ a1). by rewrite !append_assoc.
Qed.

(** X7. Every mandate contains the empty string, so with the empty substring
    every record is counted; and a shorter needle never counts fewer
    records: when [substring'] occurs inside [substring], every record
    counted for [substring] is counted for [substring']. *)
Theorem countByMandateSubstring_monotone (data : list EndorsementRecord)
    (substring substring' : string) :
  contains substring substring' ->
  countByMandateSubstring data EmptyString = length data
  /\ countByMandateSubstring data substring
     <= countByMandateSubstring data substring'.
Proof.
  intros Hsub. split.
  - unfold countByMandateSubstring.
    induction data as [|d ds IH]; [done|]. cbn [List.filter].
    replace (includes (mandate d) EmptyString) with true.
    + cbn. by rewrite IH.
    + symmetry. apply includes_true_iff. by exists EmptyString, (mandate d).
  - apply length_filter_le. intros d Hd%includes_true_iff.
    apply includes_true_iff. by eapply contains_trans.
Qed.

Lemma countByMandateSubstring_monotone_witness :
  contains "Maire" "Mai"
  /\ countByMandateSubstring example2022 "Maire"
     <= countByMandateSubstring example2022 "Mai".
Proof.
  assert (Hsub : contains "Maire" "Mai") by (by exists EmptyString, "re").
  split; [exact Hsub|].
  exact (proj2 (countByMandateSubstring_monotone example2022 "Maire" "Mai" Hsub)).
Defined.

(** ** The order of the distinct candidates *)

Section FirstOccurrences.
Context {A : Type} `{EqDecision A}.

Lemma firsts_ext (seen seen' l : list A) :
  (forall y, y ∈ seen <-> y ∈ seen') -> firsts seen l = firsts seen' l.
Proof.
  revert seen seen'. induction l as [|x l IH]; intros seen seen' Hext; [done|].
  cbn. destruct (decide (x ∈ seen)) as [Hx|Hx].
  - rewrite decide_True by (by apply Hext). by apply IH.
  - rewrite decide_False by (by rewrite <- Hext). f_equal. apply IH.
    intros y. by rewrite !elem_of_cons, Hext.
Qed.

Lemma reduce_Set_add_firsts (l acc : list A) :
  reduce Set_add acc l = acc ++ firsts acc l.
Proof.
  unfold reduce. revert acc.
  induction l as [|x l IH]; intros acc; cbn [fold_left firsts].
  - by rewrite app_nil_r.
  - rewrite IH. unfold Set_add. case_bool_decide as Hin.
    + by rewrite decide_True.
    + rewrite decide_False by done. rewrite <- app_assoc. cbn. do 2 f_equal.
      apply firsts_ext. intros y.
      rewrite elem_of_app, !elem_of_cons, elem_of_nil. tauto.
Qed.

Lemma firsts_filter (P : A -> Prop) `{forall x, Decision (P x)}
    (seen seen' l : list A) :
  (forall y, y ∈ seen' <-> y ∈ seen \/ ~ P y) ->
  firsts seen' l = firsts seen (filter P l).
Proof.
  revert seen seen'. induction l as [|x l IH]; intros seen seen' Hext; [done|].
  rewrite filter_cons. cbn [firsts]. destruct (decide (P x)) as [HP|HP].
  - cbn [firsts]. destruct (decide (x ∈ seen)) as [Hx|Hx].
    + rewrite decide_True by (apply Hext; by left). by apply IH.
    + rewrite decide_False by (rewrite Hext; tauto). f_equal. apply IH.
      intros y. rewrite !elem_of_cons, Hext. tauto.
  - rewrite decide_True by (apply Hext; by right). by apply IH.
Qed.

Lemma new_Set_cons (x : A) (l : list A) :
  new_Set (x :: l) = x :: new_Set (filter (fun y => y <> x) l).
Proof.
  unfold new_Set at 1. unfold reduce. cbn [fold_left].
  change (fold_left Set_add l (Set_add [] x)) with (reduce Set_add [x] l).
  rewrite reduce_Set_add_firsts. cbn. f_equal.
  unfold new_Set. rewrite reduce_Set_add_firsts. cbn.
  apply firsts_filter. intros y.
  rewrite list_elem_of_singleton, elem_of_nil.
  destruct (decide (y = x)); tauto.
Qed.

Lemma length_new_Set (l : list A) : length (new_Set l) <= length l.
Proof.
  unfold new_Set. rewrite reduce_Set_add_firsts. cbn.
  generalize (@nil A) as seen. induction l as [|x l IH]; intros seen; [done|].
  cbn. case_decide; cbn; [etrans; [apply IH|lia]|].
  specialize (IH (x :: seen)). lia.
Qed.

End FirstOccurrences.

(** X8. [distinctCandidates] lists every candidate that some record endorses,
    in the order in which the candidates first occur in the collection: the
    candidate of the first record comes first, followed by the distinct
    candidates of the remaining records that endorse someone else; the list
    is never longer than the collection. *)
Theorem distinctCandidates_complete_in_first_occurrence_order :
  (forall data d, d ∈ data -> candidate d ∈ distinctCandidates data)
  /\ (forall d data,
         distinctCandidates (d :: data)
         = candidate d
           :: distinctCandidates
                (filter (fun d' => candidate d' <> candidate d) data))
  /\ (forall data, length (distinctCandidates data) <= length data)
  /\ distinctCandidates [] = [].
Proof.
  split_and!.
  - intros data d Hd. apply elem_of_new_Set, list_elem_of_fmap. by exists d.
  - intros d data. unfold distinctCandidates. cbn [map].
    rewrite new_Set_cons. do 2 f_equal.
    induction data as [|d' ds IH]; [done|].
    cbn [map]. rewrite !filter_cons.
    destruct (decide (candidate d' <> candidate d)); cbn [map]; by rewrite IH.
  - intros data. unfold distinctCandidates.
    etrans; [apply length_new_Set|]. by rewrite length_map.
  - done.
Qed.

(** ** Extreme percentages *)

Lemma how_many_zero_iff {A : Type} (P : A -> Prop) `{forall x, Decision (P x)}
    (l : list A) :
  how_many P l = 0 <-> forall x, x ∈ l -> ~ P x.
Proof.
  induction l as [|x l IH]; cbn.
  - split; [|done]. intros _ x Hx. by apply elem_of_nil in Hx.
  - case_decide as HP.
    + split; [done|]. intros Hnone. destruct (Hnone x); [apply list_elem_of_here|done].
    + cbn. rewrite IH. split.
      * intros Hnone y [->|Hy]%elem_of_cons; [done|by apply Hnone].
      * intros Hnone y Hy. by apply Hnone, list_elem_of_further.
Qed.

Lemma how_many_full_iff {A : Type} (P : A -> Prop) `{forall x, Decision (P x)}
    (l : list A) :
  how_many P l = length l <-> forall x, x ∈ l -> P x.
Proof.
  induction l as [|x l IH]; cbn.
  - split; [|done]. intros _ x Hx. by apply elem_of_nil in Hx.
  - pose proof (how_many_le_length P l) as Hle. case_decide as HP.
    + split.
      * intros Hall y [->|Hy]%elem_of_cons; [done|].
        apply IH; [lia|done].
      * intros Hall. f_equal. apply IH. intros y Hy.
        by apply Hall, list_elem_of_further.
    + split; [lia|]. intros Hall. destruct HP. apply Hall, list_elem_of_here.
Qed.

Lemma Qcmult_cancel_r (x y c : Qc) : c <> 0%Qc -> (x * c = y * c)%Qc -> x = y.
Proof.
  intros Hc Heq.
  rewrite <- (Qcmult_1_r x), <- (Qcmult_1_r y), <- (Qcmult_inv_r c Hc).
  by rewrite !Qcmult_assoc, Heq.
Qed.

Lemma percent_inj (a b n : nat) : n <> 0 -> percent a n = percent b n -> a = b.
Proof.
  intros Hn Heq. unfold percent, Qcdiv in Heq.
  assert (Hn' : Qc_of_Z (Z.of_nat n) <> 0%Qc) by (by rewrite Qc_of_nat_eq_0).
  assert (Hinv : (/ Qc_of_Z (Z.of_nat n))%Qc <> 0%Qc).
  { intros Hzero. pose proof (Qcmult_inv_r _ Hn') as Hone.
    rewrite Hzero, Qcmult_0_r in Hone. discriminate Hone. }
  assert (H100 : Qc_of_Z 100 <> 0%Qc).
  { rewrite <- Z2Qc_inj_0. by intros ?%Z2Qc_inj. }
  apply Qcmult_cancel_r in Heq; [|done].
  apply Qcmult_cancel_r in Heq; [|done].
  apply Z2Qc_inj in Heq. lia.
Qed.

Lemma Num_inj (q q' : Qc) : Num q = Num q' -> q = q'.
Proof. intros Heq. by injection Heq. Qed.

(** X9. On a collection with at least one record, the percentage for a
    civility value, in exact rational arithmetic, is 0 exactly when no record
    has that value, and 100 exactly when every record has it. *)
Theorem percentageWithCivility_extremes (data : list EndorsementRecord)
    (v : string) :
  data <> [] ->
  (percentageWithCivility data v = Num 0%Qc
   <-> forall d, d ∈ data -> civility d <> v)
  /\ (percentageWithCivility data v = Num (Qc_of_Z 100)
      <-> forall d, d ∈ data -> civility d = v).
Proof.
  intros Hne.
  assert (Hlen : length data <> 0) by (by destruct data).
  rewrite percentageWithCivility_nonempty by done.
  rewrite <- (percent_zero (length data)), <- (percent_full (length data)) by done.
  split.
  - rewrite <- how_many_zero_iff. split.
    + intros Heq%Num_inj. by apply percent_inj in Heq.
    + by intros ->.
  - rewrite <- how_many_full_iff. split.
    + intros Heq%Num_inj. by apply percent_inj in Heq.
    + by intros ->.
Qed.

Lemma percentageWithCivility_extremes_witness :
  example2022 <> []
  /\ (percentageWithCivility example2022 "M." = Num 0%Qc
      <-> forall d, d ∈ example2022 -> civility d <> "M.").
Proof.
  split; [discriminate|].
  apply (percentageWithCivility_extremes example2022 "M."). discriminate.
Defined.

(** ** The sum of an array *)

(** X10. On an array of non-negative integers whose sum is below 2^53, the
    reduce of line 98 returns exactly the sum of the elements: no addition
    rounds.  Hence the sum of a concatenation is the sum of the two sums and
    every reordering of the array gives the same result.  Beyond that bound
    the order of the elements matters: 2^53, 1, 1 adds up to 2^53 and
    1, 1, 2^53 to 2^53 + 2. *)
Theorem reduce_as_sum_exact (xs ys : list nat) :
  (Z.of_nat (sum_list xs + sum_list ys) < 2 ^ 53)%Z ->
  reduce_as_sum (map double_of_nat xs) = double_of_nat (sum_list xs)
  /\ reduce_as_sum (map double_of_nat (xs ++ ys))
     = double_add (reduce_as_sum (map double_of_nat xs))
                  (reduce_as_sum (map double_of_nat ys))
  /\ (forall zs, zs ≡ₚ xs ->
                 reduce_as_sum (map double_of_nat zs)
                 = reduce_as_sum (map double_of_nat xs))
  /\ reduce_as_sum [] = double_of_Z 0
  /\ reduce_as_sum (map double_of_Z [2 ^ 53; 1; 1]%Z) = double_of_Z (2 ^ 53)
  /\ reduce_as_sum (map double_of_Z [1; 1; 2 ^ 53]%Z) = double_of_Z (2 ^ 53 + 2).
Proof.
  intros Hsum.
  assert (Hexact : forall l : list nat,
             (Z.of_nat (sum_list l) < 2 ^ 53)%Z ->
             reduce_as_sum (map double_of_nat l) = double_of_nat (sum_list l)).
  { intros l Hl. unfold reduce_as_sum.
    change (double_of_Z 0) with (double_of_nat 0).
    by rewrite (reduce_double_add_exact l 0). }
  split_and!; [apply Hexact; lia| | |done|by vm_compute|by vm_compute].
  - rewrite !Hexact by (rewrite ?sum_list_with_app; lia).
    rewrite double_add_nat by lia. by rewrite sum_list_with_app.
  - intros zs Hperm.
    assert (Hzs : sum_list zs = sum_list xs) by (by rewrite Hperm).
    rewrite !Hexact by lia. by rewrite Hzs.
Qed.

(** The array of line 97 adds up to 36 in every order. *)
Lemma reduce_as_sum_exact_witness :
  (Z.of_nat (sum_list [2; 3; 8; 6; 1; 7; 4; 5]%nat + sum_list ([] : list nat)) < 2 ^ 53)%Z
  /\ reduce_as_sum (map double_of_nat [2; 3; 8; 6; 1; 7; 4; 5]%nat)
     = double_of_nat (sum_list [2; 3; 8; 6; 1; 7; 4; 5]%nat).
Proof.
  assert (Hsum : (Z.of_nat (sum_list [2; 3; 8; 6; 1; 7; 4; 5]%nat + sum_list ([] : list nat))
                  < 2 ^ 53)%Z) by (by vm_compute).
  split; [exact Hsum|].
  exact (proj1 (reduce_as_sum_exact [2; 3; 8; 6; 1; 7; 4; 5]%nat [] Hsum)).
Defined.

(** ** What each batch mode does, and when *)

Lemma start_all_trace (urls : list string) (e : env) (w : world) :
  exists w',
    start_all urls e w = (inr (in_flight e (requests w) urls), w')
    /\ trace w' = trace w ++ start_events urls
    /\ requests w' = requests w + length urls.
Proof.
  revert w. induction urls as [|url rest IH]; intros w.
  - exists w. split_and!; [done|by rewrite app_nil_r|cbn; lia].
  - cbn [start_all]. rewrite run_bind, run_scrape_start, run_bind.
    edestruct IH as (w' & -> & Htr & Hreq). eexists. split_and!.
    + rewrite run_ret. do 2 f_equal. unfold in_flight.
      rewrite imap_cons. cbn [requests]. rewrite Nat.add_0_r. f_equal.
      apply imap_ext. intros i u _. cbn. by rewrite Nat.add_succ_r.
    + rewrite Htr. cbn [trace]. by rewrite <- app_assoc.
    + rewrite Hreq. cbn. lia.
Qed.

Lemma collect_trace_answers settling values (e : env) (w : world) :
  (forall i p, (i, p) ∈ settling -> is_Some (outcome p)) ->
  trace (collect settling values e w).2
  = trace w ++ replicate (length settling) (Sleep 2000).
Proof.
  revert values w.
  induction settling as [|[i p] rest IH]; intros values w Hall.
  - cbn. by rewrite app_nil_r.
  - destruct (Hall i p) as [html Hp]; [apply list_elem_of_here|].
    cbn [collect]. rewrite run_bind, run_scrape_resume, Hp.
    rewrite IH by (intros j q Hq; by eapply Hall, list_elem_of_further).
    cbn. by rewrite <- app_assoc.
Qed.

Lemma collect_trace_rejects settling values (e : env) (w : world) :
  (exists i p, (i, p) ∈ settling /\ outcome p = None) ->
  exists k,
    k < length settling
    /\ trace (collect settling values e w).2
       = trace w ++ replicate k (Sleep 2000) ++ [Raise RetrievalError].
Proof.
  revert values w. induction settling as [|[i p] rest IH];
    intros values w (j & q & Hin & Hq).
  - by apply elem_of_nil in Hin.
  - cbn [collect]. rewrite run_bind, run_scrape_resume.
    destruct (outcome p) as [html|] eqn:Hp.
    + edestruct (IH (<[i:=Some html]> values)
                    (mkWorld (trace w ++ [Sleep 2000]) (requests w)))
        as (k & Hk & Htr).
      { apply elem_of_cons in Hin as [[= -> ->]|Hin]; [congruence|].
        by exists j, q. }
      exists (S k). split; [cbn; lia|].
      rewrite Htr. cbn. by rewrite <- app_assoc.
    + exists 0. split; [cbn; lia|done].
Qed.

Lemma length_settle_order (ps : list pending) :
  length (settle_order ps) = length ps.
Proof.
  unfold settle_order. by rewrite merge_sort_Permutation, length_imap.
Qed.

Lemma length_in_flight (e : env) (k : nat) (urls : list string) :
  length (in_flight e k urls) = length urls.
Proof. apply length_imap. Qed.

Section SequentialTrace.
Context (e : env).

Let callback (promise : M (list string)) (url : string) : M (list string) :=
  pages ← promise;
  p ← scrape_start url;
  html ← scrape_resume p;
  mret (pages ++ [html]).

Lemma reduce_callback_trace_answers (urls pages : list string)
    (promise : M (list string)) (w w1 : world) :
  promise e w = (inr pages, w1) ->
  (forall i url, urls !! i = Some url -> is_Some (net e (requests w1 + i) url)) ->
  trace (reduce callback promise urls e w).2
  = trace w1 ++ one_by_one_events urls.
Proof.
  unfold reduce. revert promise pages w1.
  induction urls as [|url rest IH]; intros promise pages w1 Hpromise Hall.
  - cbn. by rewrite Hpromise, app_nil_r.
  - cbn [fold_left]. destruct (Hall 0 url) as [html Hhtml]; [done|].
    rewrite Nat.add_0_r in Hhtml.
    rewrite (IH (callback promise url) (pages ++ [html])
               (mkWorld (trace w1 ++ [Log (OutScraping url); Fetch url; Sleep 2000])
                        (S (requests w1)))).
    + cbn [trace one_by_one_events flat_map]. by rewrite <- !app_assoc.
    + unfold callback.
      rewrite run_bind, Hpromise, run_bind, run_scrape_start, run_bind,
        run_scrape_resume.
      cbn [outcome]. rewrite Hhtml, run_ret. cbn. by rewrite <- app_assoc.
    + intros i u Hu. cbn [requests]. specialize (Hall (S i) u Hu).
      by rewrite Nat.add_succ_r in Hall.
Qed.

Lemma reduce_callback_trace_rejects (urls pages : list string)
    (promise : M (list string)) (w w1 : world) (i : nat) (url : string) :
  promise e w = (inr pages, w1) ->
  urls !! i = Some url -> net e (requests w1 + i) url = None ->
  (forall j u, j < i -> urls !! j = Some u ->
               is_Some (net e (requests w1 + j) u)) ->
  exists w',
    reduce callback promise urls e w = (inl RetrievalError, w')
    /\ trace w'
       = trace w1 ++ one_by_one_events (take i urls)
           ++ [Log (OutScraping url); Fetch url; Raise RetrievalError]
    /\ requests w' = requests w1 + S i.
Proof.
  unfold reduce. revert promise pages w1 i.
  induction urls as [|u0 rest IH];
    intros promise pages w1 i Hpromise Hurl Hnone Hbefore; [done|].
  cbn [fold_left]. destruct i as [|i].
  - injection Hurl as ->. rewrite Nat.add_0_r in Hnone.
    pose proof (reduce_callback_rejected e rest (callback promise url) w)
      as Hrej.
    unfold reduce in Hrej. eexists. split; [apply Hrej|split].
    + unfold callback.
      rewrite run_bind, Hpromise, run_bind, run_scrape_start, run_bind,
        run_scrape_resume.
      cbn [outcome]. by rewrite Hnone.
    + cbn. by rewrite <- app_assoc.
    + cbn. lia.
  - destruct (Hbefore 0 u0) as [html Hhtml]; [lia|done|].
    rewrite Nat.add_0_r in Hhtml.
    edestruct (IH (callback promise u0) (pages ++ [html])
                 (mkWorld (trace w1 ++ [Log (OutScraping u0); Fetch u0; Sleep 2000])
                          (S (requests w1))) i)
      as (w' & Hrun & Htr & Hreq); [|exact Hurl| | |].
    + unfold callback.
      rewrite run_bind, Hpromise, run_bind, run_scrape_start, run_bind,
        run_scrape_resume.
      cbn [outcome]. rewrite Hhtml, run_ret. cbn. by rewrite <- app_assoc.
    + cbn [requests]. by rewrite Nat.add_succ_l, <- Nat.add_succ_r.
    + intros j u Hj Hu. cbn [requests].
      rewrite Nat.add_succ_l, <- Nat.add_succ_r. apply Hbefore; [lia|done].
    + exists w'. split_and!; [done| |].
      * rewrite Htr. cbn [trace take one_by_one_events flat_map].
        by rewrite <- !app_assoc.
      * rewrite Hreq. cbn. lia.
Qed.

End SequentialTrace.

(** X11. When every request is answered, the concurrent mode logs and issues
    all requests first and only then sleeps once per URL, while the
    sequential mode handles one URL after the other: it logs, issues the
    request and sleeps, and only then turns to the next URL. *)
Theorem batch_modes_differ_in_order (urls : list string) (e : env) (w : world) :
  (forall i url, urls !! i = Some url -> is_Some (net e (requests w + i) url)) ->
  trace (webpagesSimultaneous urls e w).2
  = trace w ++ start_events urls ++ replicate (length urls) (Sleep 2000)
  /\ trace (webpagesSequential urls e w).2
     = trace w ++ one_by_one_events urls.
Proof.
  intros Hall. split.
  - unfold webpagesSimultaneous. rewrite run_bind.
    destruct (start_all_trace urls e w) as (w1 & -> & Htr1 & Hreq1).
    unfold Promise_all. rewrite run_bind.
    match goal with
    | |- context [collect ?s ?v e w1] =>
        pose proof (collect_trace_answers s v e w1) as Htr2;
        destruct (collect_answers e s v w1) as (w2 & Hrun)
    end.
    + intros i p Hin%elem_of_settle_order. rewrite in_flight_lookup in Hin.
      destruct (urls !! i) as [url|] eqn:Hurl; [|done].
      injection Hin as <-. by apply Hall.
    + rewrite Hrun in *. rewrite run_ret. cbn [snd] in *.
      rewrite Htr2, Htr1, length_settle_order, length_in_flight.
      * by rewrite <- app_assoc.
      * intros i p Hin%elem_of_settle_order. rewrite in_flight_lookup in Hin.
        destruct (urls !! i) as [url|] eqn:Hurl; [|done].
        injection Hin as <-. by apply Hall.
  - unfold webpagesSequential.
    by rewrite (reduce_callback_trace_answers e urls [] (mret []) w w).
Qed.

Lemma batch_modes_differ_in_order_witness :
  (forall i url, URLS !! i = Some url ->
                 is_Some (net example_env (requests (mkWorld [] 0) + i) url))
  /\ trace (webpagesSequential URLS example_env (mkWorld [] 0)).2
     = trace (mkWorld [] 0) ++ one_by_one_events URLS.
Proof.
  assert (Hall : forall i url, URLS !! i = Some url ->
            is_Some (net example_env (requests (mkWorld [] 0) + i) url))
    by (intros i url _; by eexists).
  split; [exact Hall|].
  exact (proj2 (batch_modes_differ_in_order URLS example_env (mkWorld [] 0) Hall)).
Defined.

(** X12. When the request for the URL at position [i] is the first one to
    fail, both modes fail with a retrieval error, but the sequential mode
    stops there: it has handled the [i] URLs before it completely and has
    issued no request for a later URL, whereas the concurrent mode has
    issued the requests for all URLs before the failure surfaces. *)
Theorem batch_modes_on_failure (urls : list string) (e : env) (w : world)
    (i : nat) (url : string) :
  urls !! i = Some url -> net e (requests w + i) url = None ->
  (forall j u, j < i -> urls !! j = Some u ->
               is_Some (net e (requests w + j) u)) ->
  ((webpagesSequential urls e w).1 = inl RetrievalError
   /\ trace (webpagesSequential urls e w).2
      = trace w ++ one_by_one_events (take i urls)
          ++ [Log (OutScraping url); Fetch url; Raise RetrievalError]
   /\ requests (webpagesSequential urls e w).2 = requests w + S i)
  /\ ((webpagesSimultaneous urls e w).1 = inl RetrievalError
      /\ (exists k, k < length urls
            /\ trace (webpagesSimultaneous urls e w).2
               = trace w ++ start_events urls ++ replicate k (Sleep 2000)
                   ++ [Raise RetrievalError])
      /\ requests (webpagesSimultaneous urls e w).2
         = requests w + length urls).
Proof.
  intros Hurl Hnone Hbefore. split.
  - unfold webpagesSequential.
    destruct (reduce_callback_trace_rejects e urls [] (mret []) w w i url
                eq_refl Hurl Hnone Hbefore) as (w' & -> & Htr & Hreq).
    done.
  - split; [by eapply webpagesSimultaneous_rejects|].
    unfold webpagesSimultaneous. rewrite run_bind.
    destruct (start_all_trace urls e w) as (w1 & -> & Htr1 & Hreq1).
    unfold Promise_all. rewrite run_bind.
    match goal with
    | |- context [collect ?s ?v e w1] =>
        pose proof (collect_trace_rejects s v e w1) as Htr2;
        pose proof (collect_requests s v e w1) as Hreq2;
        pose proof (collect_rejects s v e w1) as Hrej;
        destruct (collect s v e w1) as [[err|values] w2]
    end.
    + cbn [snd] in *. split; [|lia].
      destruct Htr2 as (k & Hk & Htr2).
      { eexists i, _. split;
          [apply elem_of_settle_order; by rewrite in_flight_lookup, Hurl|done]. }
      exists k. rewrite length_settle_order, length_in_flight in Hk.
      split; [done|]. by rewrite Htr2, Htr1, <- app_assoc.
    + cbn in Hrej. discriminate Hrej. eexists i, _. split;
        [apply elem_of_settle_order; by rewrite in_flight_lookup, Hurl|done].
Qed.

Lemma batch_modes_on_failure_witness :
  (URLS !! 1 = Some "https://tomfevrier.io"
   /\ net failing_env (requests (mkWorld [] 0) + 1) "https://tomfevrier.io" = None
   /\ (forall j u, j < 1 -> URLS !! j = Some u ->
                   is_Some (net failing_env (requests (mkWorld [] 0) + j) u)))
  /\ requests (webpagesSequential URLS failing_env (mkWorld [] 0)).2 = 2
  /\ requests (webpagesSimultaneous URLS failing_env (mkWorld [] 0)).2 = 3.
Proof.
  assert (Hbefore : forall j u, j < 1 -> URLS !! j = Some u ->
            is_Some (net failing_env (requests (mkWorld [] 0) + j) u)).
  { intros j u Hj _. destruct j as [|j]; [by eexists|lia]. }
  pose proof (batch_modes_on_failure URLS failing_env (mkWorld [] 0) 1
                "https://tomfevrier.io" eq_refl eq_refl Hbefore) as Hfail.
  split; [by split_and!|].
  split; [exact (proj2 (proj2 (proj1 Hfail)))|exact (proj2 (proj2 (proj2 Hfail)))].
Defined.

(** ** Chaining with [then] and with [await] *)

(** X13. The chain of [then] calls of lines 42-50 and the sequence of
    [await]s of lines 54-59 behave alike in every outside world: a rejected
    request gives a retrieval error and a body that does not parse a decode
    error, in both cases without logging anything; otherwise the number of
    records is logged once, after one request. *)
Theorem option1_then_is_option2_await (e : env) (w : world) :
  option1_then e w = option2_await e w
  /\ option2_await e w
     = match net e (requests w) URL_2022 with
       | None =>
           (inl RetrievalError,
            mkWorld (trace w ++ [Fetch URL_2022; Raise RetrievalError])
                    (S (requests w)))
       | Some body =>
           match JSON_parse e body with
           | None =>
               (inl DecodeError,
                mkWorld (trace w ++ [Fetch URL_2022; Raise DecodeError])
                        (S (requests w)))
           | Some data =>
               (inr tt,
                mkWorld (trace w ++ [Fetch URL_2022; Log (OutLength (length data))])
                        (S (requests w)))
           end
       end.
Proof.
  assert (Hjson : forall k : list EndorsementRecord -> M unit,
             (fetch_json URL_2022 ≫= k) e w
             = (response ← fetch_text URL_2022; data ← parse response; k data) e w).
  { intros k. unfold fetch_json. rewrite !run_bind.
    destruct (fetch_text URL_2022 e w) as [[err|body] w1]; [done|].
    by rewrite run_bind. }
  split.
  - apply (Hjson (fun data => console_log (OutLength (length data)))).
  - unfold option2_await.
    rewrite <- (Hjson (fun data => console_log (OutLength (length data)))).
    rewrite run_bind, run_fetch_json.
    destruct (net e (requests w) URL_2022) as [body|]; [|done].
    destruct (JSON_parse e body) as [data|]; [|done].
    rewrite run_console_log. cbn. by rewrite <- app_assoc.
Qed.

(** ** The pages of a batch *)

Lemma answers_in_flight (e : env) (k : nat) (urls : list string) :
  omap id (outcome <$> in_flight e k urls) = answers e k urls.
Proof.
  unfold answers, in_flight. f_equal. rewrite fmap_imap. by apply imap_ext.
Qed.

Lemma answers_cons (e : env) (k : nat) (url html : string) (rest : list string) :
  net e k url = Some html ->
  answers e k (url :: rest) = html :: answers e (S k) rest.
Proof.
  intros Hhtml. unfold answers. rewrite imap_cons, Nat.add_0_r, Hhtml. cbn.
  do 2 f_equal. apply imap_ext. intros i u _. cbn. by rewrite Nat.add_succ_r.
Qed.

Lemma reduce_callback_pages (e : env) (urls pages : list string)
    (promise : M (list string)) (w w1 : world) :
  promise e w = (inr pages, w1) ->
  (forall i url, urls !! i = Some url -> is_Some (net e (requests w1 + i) url)) ->
  (reduce
     (fun (promise : M (list string)) url =>
        pages ← promise;
        p ← scrape_start url;
        html ← scrape_resume p;
        mret (pages ++ [html]))
     promise urls e w).1
  = inr (pages ++ answers e (requests w1) urls).
Proof.
  unfold reduce. revert promise pages w1.
  induction urls as [|url rest IH]; intros promise pages w1 Hpromise Hall.
  - cbn. by rewrite Hpromise, app_nil_r.
  - cbn [fold_left]. destruct (Hall 0 url) as [html Hhtml]; [done|].
    rewrite Nat.add_0_r in Hhtml.
    rewrite (answers_cons e _ url html rest Hhtml).
    replace (pages ++ html :: answers e (S (requests w1)) rest)
      with ((pages ++ [html]) ++ answers e (S (requests w1)) rest)
      by (by rewrite <- app_assoc).
    apply (IH _ (pages ++ [html])
             (mkWorld (trace w1 ++ [Log (OutScraping url); Fetch url; Sleep 2000])
                      (S (requests w1)))).
    + rewrite run_bind, Hpromise, run_bind, run_scrape_start, run_bind,
        run_scrape_resume.
      cbn [outcome]. rewrite Hhtml, run_ret. cbn. by rewrite <- app_assoc.
    + intros i u Hu. cbn [requests]. specialize (Hall (S i) u Hu).
      by rewrite Nat.add_succ_r in Hall.
Qed.

(** X14. When every request of a batch is answered, each mode returns the
    bodies answered to its own requests, in the order of the URLs, even when
    the same URL is answered differently from one request to the next and
    whatever the latencies: the page at position [i] is the answer to the
    [i]-th request the batch issued. *)
Theorem batch_modes_return_their_answers (urls : list string) (e : env)
    (w : world) :
  (forall i url, urls !! i = Some url -> is_Some (net e (requests w + i) url)) ->
  (webpagesSimultaneous urls e w).1 = inr (answers e (requests w) urls)
  /\ (webpagesSequential urls e w).1 = inr (answers e (requests w) urls)
  /\ length (answers e (requests w) urls) = length urls.
Proof.
  intros Hall. split_and!.
  - unfold webpagesSimultaneous. rewrite run_bind.
    destruct (start_all_trace urls e w) as (w1 & -> & _ & _).
    unfold Promise_all. rewrite run_bind.
    edestruct (collect_answers e) as (w2 & ->).
    { intros i p Hin%elem_of_settle_order. rewrite in_flight_lookup in Hin.
      destruct (urls !! i) as [url|] eqn:Hurl; [|done].
      injection Hin as <-. by apply Hall. }
    rewrite run_ret. cbn. by rewrite filled_settle_order, answers_in_flight.
  - unfold webpagesSequential.
    by rewrite (reduce_callback_pages e urls [] (mret []) w w).
  - revert Hall. generalize (requests w) as k.
    induction urls as [|url rest IH]; intros k Hall; [done|].
    destruct (Hall 0 url) as [html Hhtml]; [done|].
    rewrite Nat.add_0_r in Hhtml. rewrite (answers_cons e k url html rest Hhtml).
    cbn. f_equal. apply IH. intros i u Hu. specialize (Hall (S i) u Hu).
    by rewrite Nat.add_succ_r in Hall.
Qed.

Lemma batch_modes_return_their_answers_witness :
  (forall i url, URLS !! i = Some url ->
                 is_Some (net example_env (requests (mkWorld [] 0) + i) url))
  /\ (webpagesSimultaneous URLS example_env (mkWorld [] 0)).1
     = inr (answers example_env (requests (mkWorld [] 0)) URLS).
Proof.
  assert (Hall : forall i url, URLS !! i = Some url ->
            is_Some (net example_env (requests (mkWorld [] 0) + i) url))
    by (intros i url _; by eexists).
  split; [exact Hall|].
  exact (proj1 (batch_modes_return_their_answers
                  URLS example_env (mkWorld [] 0) Hall)).
Defined.

(** ** A complete run *)

Lemma world_eta (w : world) : w = mkWorld (trace w) (requests w).
Proof. by destruct w. Qed.

Lemma webpagesSimultaneous_run (urls : list string) (e : env) (w : world) :
  (forall i url, urls !! i = Some url -> is_Some (net e (requests w + i) url)) ->
  webpagesSimultaneous urls e w
  = (inr (answers e (requests w) urls),
     mkWorld (trace w ++ start_events urls ++ replicate (length urls) (Sleep 2000))
             (requests w + length urls)).
Proof.
  intros Hall. unfold webpagesSimultaneous. rewrite run_bind.
  destruct (start_all_trace urls e w) as (w1 & -> & Htr1 & Hreq1).
  unfold Promise_all. rewrite run_bind.
  assert (Hsome : forall i p,
             (i, p) ∈ settle_order (in_flight e (requests w) urls) ->
             is_Some (outcome p)).
  { intros i p Hin%elem_of_settle_order. rewrite in_flight_lookup in Hin.
    destruct (urls !! i) as [url|] eqn:Hurl; [|done].
    injection Hin as <-. by apply Hall. }
  match goal with
  | |- context [collect ?s ?v e w1] =>
      pose proof (collect_trace_answers s v e w1 Hsome) as Htr2;
      pose proof (collect_requests s v e w1) as Hreq2;
      destruct (collect_answers e s v w1 Hsome) as (w2 & Hrun)
  end.
  rewrite Hrun in *. cbn [snd] in *. rewrite run_ret.
  rewrite filled_settle_order, answers_in_flight. f_equal.
  rewrite (world_eta w2), Htr2, Hreq2, Htr1, Hreq1.
  rewrite length_settle_order, length_in_flight. by rewrite <- app_assoc.
Qed.

Lemma webpagesSequential_run (urls : list string) (e : env) (w : world) :
  (forall i url, urls !! i = Some url -> is_Some (net e (requests w + i) url)) ->
  webpagesSequential urls e w
  = (inr (answers e (requests w) urls),
     mkWorld (trace w ++ one_by_one_events urls) (requests w + length urls)).
Proof.
  intros Hall. unfold webpagesSequential.
  pose proof (reduce_callback_pages e urls [] (mret []) w w eq_refl Hall) as Hpages.
  pose proof (reduce_callback_trace_answers e urls [] (mret []) w w eq_refl Hall)
    as Htr.
  destruct (reduce_callback_completes e urls [] (mret []) w w eq_refl Hall)
    as (pages & w' & Hrun & Hreq).
  rewrite Hrun in *. cbn in Hpages, Htr. injection Hpages as ->.
  f_equal. by rewrite (world_eta w'), Htr, Hreq.
Qed.

(** X15. When the data set is fetched and decoded, every request of the two
    batches is answered and the prior-year file is read and decoded, the run
    completes, and what it does is, in this order: one request for the data
    set; the statistics of the current year; the concurrent batch (all
    requests, then the sleeps) and its pages; the sequential batch (one URL
    after the other) and its pages; the read of the prior-year file; and the
    join of the two decoded collections for "zemmour". *)
Theorem main_complete_run (e : env) (body text : string)
    (data2022 data2017 : list EndorsementRecord) :
  net e 0 URL_2022 = Some body -> JSON_parse e body = Some data2022 ->
  (forall i url, URLS !! i = Some url -> is_Some (net e (1 + i) url)) ->
  (forall i url, URLS !! i = Some url -> is_Some (net e (4 + i) url)) ->
  disk e "data-2017.json" = Some text -> JSON_parse e text = Some data2017 ->
  run main e
  = (inr tt,
     [Fetch URL_2022] ++ statistics_events data2022
       ++ start_events URLS ++ replicate 3 (Sleep 2000)
       ++ [Log (OutStrings (answers e 1 URLS))]
       ++ one_by_one_events URLS
       ++ [Log (OutStrings (answers e 4 URLS));
           ReadFile "data-2017.json";
           Log (OutObject (crossYearJoin "zemmour" data2022 data2017))]).
Proof.
  intros Hnet Hparse Hall1 Hall2 Hdisk Hparse17.
  unfold run, main.
  rewrite run_bind, run_fetch_json. cbn [requests]. rewrite Hnet, Hparse.
  do 8 (rewrite run_bind, run_console_log). cbn [trace requests].
  rewrite run_bind, webpagesSimultaneous_run by done. cbn [trace requests].
  rewrite run_bind, run_console_log. cbn [trace requests].
  rewrite run_bind, webpagesSequential_run by done. cbn [trace requests].
  rewrite run_bind, run_console_log. cbn [trace requests].
  unfold readFileSync, parse, or_raise, emit.
  rewrite !run_bind. cbn [trace requests]. rewrite Hdisk.
  rewrite run_ret, run_bind, Hparse17, run_ret, run_console_log.
  cbn [trace]. reflexivity.
Qed.

Lemma main_complete_run_witness :
  (net example_env 0 URL_2022 = Some (example_body URL_2022)
   /\ JSON_parse example_env (example_body URL_2022) = Some example2022
   /\ (forall i url, URLS !! i = Some url ->
                     is_Some (net example_env (1 + i) url))
   /\ (forall i url, URLS !! i = Some url ->
                     is_Some (net example_env (4 + i) url))
   /\ disk example_env "data-2017.json" = Some "2017"
   /\ JSON_parse example_env "2017" = Some example2017)
  /\ (run main example_env).1 = inr tt.
Proof.
  assert (Hall1 : forall i url, URLS !! i = Some url ->
            is_Some (net example_env (1 + i) url))
    by (intros i url _; by eexists).
  assert (Hall2 : forall i url, URLS !! i = Some url ->
            is_Some (net example_env (4 + i) url))
    by (intros i url _; by eexists).
  split; [by split_and!|].
  exact (f_equal fst
           (main_complete_run example_env (example_body URL_2022) "2017"
              example2022 example2017 eq_refl eq_refl Hall1 Hall2
              eq_refl eq_refl)).
Defined.

(** ** Inherited keys *)

Lemma append_not_empty (s t : string) : t <> EmptyString -> s +:+ t <> EmptyString.
Proof. intros Ht. destruct s; [done|]. discriminate. Qed.

Lemma tally_step_inherited (data2017 : list EndorsementRecord)
    (acc : gmap string value) (d : EndorsementRecord) :
  (acc !! "__proto__" = None
   /\ forall key v, key ∈ Object_prototype_methods -> acc !! key = Some v ->
                    exists s, v = VString s /\ s <> EmptyString) ->
  tally_step data2017 acc d !! "__proto__" = None
  /\ forall key v, key ∈ Object_prototype_methods ->
                   tally_step data2017 acc d !! key = Some v ->
                   exists s, v = VString s /\ s <> EmptyString.
Proof.
  intros [Hproto Hmethods]. unfold tally_step.
  destruct (find _ data2017) as [e|]; [|done].
  set (k := candidate e). unfold set.
  destruct (String.eqb k "__proto__") eqn:Hk; [done|].
  apply String.eqb_neq in Hk. split.
  - by rewrite lookup_insert_ne.
  - intros key v Hkey. destruct (decide (k = key)) as [->|Hne].
    + rewrite lookup_insert_eq. intros [= <-]. unfold get.
      destruct (acc !! key) as [v0|] eqn:Hacc.
      * destruct (Hmethods key v0 Hkey Hacc) as (s & -> & Hs).
        unfold or_else. cbn [truthy].
        apply String.eqb_neq in Hs. rewrite Hs. cbn.
        eexists. split; [done|]. by apply append_not_empty.
      * unfold Object_prototype_get. rewrite bool_decide_eq_true_2 by done.
        cbn. eexists. split; [done|]. by apply append_not_empty.
    + rewrite lookup_insert_ne by done. by apply Hmethods.
Qed.

(** X16. Whatever the two collections, the tally never has an entry of its
    own for the key "__proto__", and an entry for the name of a method that
    every object inherits ("constructor", "toString", "valueOf", ...) is
    never a number: it is a non-empty string. *)
Theorem crossYearJoin_inherited_keys (cand : string)
    (data2022 data2017 : list EndorsementRecord) :
  crossYearJoin cand data2022 data2017 !! "__proto__" = None
  /\ forall key v, key ∈ Object_prototype_methods ->
                   crossYearJoin cand data2022 data2017 !! key = Some v ->
                   exists s, v = VString s /\ s <> EmptyString.
Proof.
  unfold crossYearJoin, reduce.
  assert (Hstart : (∅ : gmap string value) !! "__proto__" = None
                   /\ forall key v, key ∈ Object_prototype_methods ->
                                    (∅ : gmap string value) !! key = Some v ->
                                    exists s, v = VString s /\ s <> EmptyString).
  { split; [done|]. intros key v _. by rewrite lookup_empty. }
  revert Hstart. generalize (∅ : gmap string value) as acc.
  induction (List.filter _ data2022) as [|d ds IH]; intros acc Hacc; [done|].
  cbn [fold_left]. by apply IH, tally_step_inherited.
Qed.
